(** * The credit ledger and settlement core of [server/storage.ts]

    A shallow embedding of [DatabaseStorage]: the tables of [shared/schema]
    as finite maps keyed by their primary key, the audit log
    [creditTransactions] as a list in creation order, and every
    balance-affecting method as a function from a database to the database
    it leaves behind together with the way the call ended (returned or
    threw). *)

From Stdlib Require Import ZArith Floats.SpecFloat.
From stdpp Require Import gmap strings list fin_maps sorting.

Local Open Scope string_scope.
Local Open Scope Z_scope.
Local Open Scope list_scope.

(** ** Rows of [shared/schema]

    Only the columns that the settlement methods read or write are kept.
    Identifiers are [varchar] primary keys; timestamps are milliseconds. *)

Module User.
Record t := mk {
  credits : Z;
  lastStipendDate : option Z;
  updatedAt : option Z
}.
End User.

Module Challenge.
Record t := mk {
  title : string;
  reward : Z
}.
End Challenge.

Module Submission.
Record t := mk {
  challengeId : string;
  userId : string;
  status : string;            (* pending, approved, rejected *)
  reviewedBy : option string;
  reviewedAt : option Z
}.
End Submission.

Module BettingEvent.
Record t := mk {
  status : string;            (* open, closed, resolved, cancelled *)
  resolvedAt : option Z;
  winningOptionId : option string
}.
End BettingEvent.

Module BettingOption.
(** [multiplier] is [decimal(10, 2)]: the value [d.dd] is kept as the
    integer [ddd] of its hundredths. *)
Record t := mk {
  eventId : string;
  multiplier : Z
}.
End BettingOption.

Module Bet.
Record t := mk {
  eventId : string;
  optionId : string;
  userId : string;
  amount : Z;
  status : string;            (* active, cancelled, won, lost *)
  payout : option Z
}.
End Bet.

(** [InsertBet]: a bet without [id], [createdAt], [status] and [payout]. *)
Module InsertBet.
Record t := mk {
  eventId : string;
  optionId : string;
  userId : string;
  amount : Z
}.
End InsertBet.

Module Loan.
Record t := mk {
  borrowerId : string;
  lenderId : option string;
  amount : Z;
  totalRepayment : Z;
  status : string;            (* pending, funded, repaid, defaulted *)
  fundedAt : option Z;
  repaidAt : option Z
}.
End Loan.

Module CreditTransaction.
Record t := mk {
  userId : string;
  amount : Z;
  type : string;
  referenceId : option string;
  description : string;
  balanceAfter : Z
}.
End CreditTransaction.

(** ** The database *)

Record Db := mkDb {
  users : gmap string User.t;
  challenges : gmap string Challenge.t;
  challengeSubmissions : gmap string Submission.t;
  bettingEvents : gmap string BettingEvent.t;
  bettingOptions : gmap string BettingOption.t;
  bets : gmap string Bet.t;
  loans : gmap string Loan.t;
  creditTransactions : list CreditTransaction.t
}.

Definition set_users (f : gmap string User.t → gmap string User.t) (db : Db) : Db :=
  mkDb (f (users db)) (challenges db) (challengeSubmissions db) (bettingEvents db)
       (bettingOptions db) (bets db) (loans db) (creditTransactions db).

Definition set_challengeSubmissions
    (f : gmap string Submission.t → gmap string Submission.t) (db : Db) : Db :=
  mkDb (users db) (challenges db) (f (challengeSubmissions db)) (bettingEvents db)
       (bettingOptions db) (bets db) (loans db) (creditTransactions db).

Definition set_bettingEvents
    (f : gmap string BettingEvent.t → gmap string BettingEvent.t) (db : Db) : Db :=
  mkDb (users db) (challenges db) (challengeSubmissions db) (f (bettingEvents db))
       (bettingOptions db) (bets db) (loans db) (creditTransactions db).

Definition set_bets (f : gmap string Bet.t → gmap string Bet.t) (db : Db) : Db :=
  mkDb (users db) (challenges db) (challengeSubmissions db) (bettingEvents db)
       (bettingOptions db) (f (bets db)) (loans db) (creditTransactions db).

Definition set_loans (f : gmap string Loan.t → gmap string Loan.t) (db : Db) : Db :=
  mkDb (users db) (challenges db) (challengeSubmissions db) (bettingEvents db)
       (bettingOptions db) (bets db) (f (loans db)) (creditTransactions db).

Definition add_creditTransaction (e : CreditTransaction.t) (db : Db) : Db :=
  mkDb (users db) (challenges db) (challengeSubmissions db) (bettingEvents db)
       (bettingOptions db) (bets db) (loans db) (creditTransactions db ++ [e]).

(** ** How a call ends *)

Inductive Outcome := Returned | Thrown.

(** [integer] columns are PostgreSQL [int4]: a value outside the range is
    an error of the statement, not a wrap-around. *)
Definition int4 (z : Z) : bool := ((-2147483648 <=? z) && (z <=? 2147483647))%Z.

(** What is left when the callback of [db.transaction] throws: the writes
    made through [tx] are undone.  [updateUserCredits] is called on [this]
    and opens its transaction on [db], not on [tx]; what it wrote to
    [users] and [creditTransactions] was committed when it returned. *)
Definition rollback (db0 db : Db) : Db :=
  mkDb (users db) (challenges db0) (challengeSubmissions db0) (bettingEvents db0)
       (bettingOptions db0) (bets db0) (loans db0) (creditTransactions db).

(** Sequencing inside a [db.transaction] callback that started at [db0]. *)
Definition andThen (db0 : Db) (r : Db * Outcome) (k : Db → Db * Outcome) : Db * Outcome :=
  match r with
  | (db, Returned) => k db
  | (db, Thrown) => (rollback db0 db, Thrown)
  end.

(** ** updateUserCredits *)

Definition updateUserCredits (userId : string) (amount : Z) (type description : string)
    (referenceId : option string) (now : Z) (db : Db) : Db * Outcome :=
  if negb (int4 amount) then (db, Thrown) else
  match users db !! userId with
  | None => (db, Thrown)                  (* [user] is undefined: [user.credits] throws *)
  | Some u =>
    let user := User.mk (User.credits u + amount) (User.lastStipendDate u) (Some now) in
    if negb (int4 (User.credits user)) then (db, Thrown) else
    (add_creditTransaction
       (CreditTransaction.mk userId amount type referenceId description (User.credits user))
       (set_users (insert userId user) db),
     Returned)
  end.

(** ** processWeeklyStipends *)

Fixpoint for_each {A} (body : A → Db → Db * Outcome) (xs : list A) (db : Db)
    : Db * Outcome :=
  match xs with
  | [] => (db, Returned)
  | x :: xs' =>
    match body x db with
    | (db', Returned) => for_each body xs' db'
    | (db', Thrown) => (db', Thrown)
    end
  end.

(** The [WHERE] of the selection.  [lastStipendDate] is written through
    the mapping of its column, as the reading of the clock in UTC;
    [oneWeekAgo] is put into the [sql] text as a [Date] and reaches the
    database as the reading of the clock in the time zone of the process,
    which is [offset] milliseconds ahead of UTC.  The column has no time
    zone: the two readings are compared as they are. *)
Definition stipend_eligible (offset oneWeekAgo : Z) (row : string * User.t) : bool :=
  match User.lastStipendDate row.2 with
  | None => true
  | Some d => (d <? oneWeekAgo + offset)%Z
  end.

(** The selection.  It is made before the loop and outside any
    transaction; the order of its rows is the database's choice. *)
Definition select_eligibleUsers (offset now : Z) (db : Db) : list (string * User.t) :=
  let oneWeekAgo := now - 7 * 24 * 60 * 60 * 1000 in
  List.filter (stipend_eligible offset oneWeekAgo) (map_to_list (users db)).

(** The body of the loop: [user] is the row as it was selected before the
    loop; the update adds to the column as it is now. *)
Definition stipend_transaction (now : Z) (row : string * User.t) (db : Db) : Db * Outcome :=
  let '(id, user) := row in
  match users db !! id with
  | None => (db, Thrown)                  (* the insert has no user to refer to *)
  | Some u =>
    let u' := User.mk (User.credits u + 200) (Some now) (Some now) in
    if negb (int4 (User.credits u')) then (db, Thrown) else
    if negb (int4 (User.credits user + 200)) then (db, Thrown) else
    (add_creditTransaction
       (CreditTransaction.mk id 200 "weekly_stipend" None "Weekly credit stipend"
          (User.credits user + 200))
       (set_users (insert id u') db),
     Returned)
  end.

(** The loop over [eligibleUsers], the rows that the selection returned.
    Every row is settled in a transaction of its own, on the database as
    it is when the turn of the row comes: other requests may have been
    served since the selection, and between two turns (a loop that is
    interrupted is the run of its parts).  A call that nothing interrupts
    runs on the database that [eligibleUsers] was selected from. *)
Definition processWeeklyStipends (now : Z) (eligibleUsers : list (string * User.t))
    (db : Db) : Db * Outcome :=
  for_each (stipend_transaction now) eligibleUsers db.

(** ** Challenge settlement *)

(** The [status] argument of [reviewSubmission] has type
    ['approved' | 'rejected']. *)
Inductive Decision := approved | rejected.

Definition decision_status (d : Decision) : string :=
  match d with approved => "approved" | rejected => "rejected" end.

Definition reviewSubmission (submissionId : string) (status : Decision) (reviewerId : string)
    (now : Z) (db0 : Db) : Db * Outcome :=
  match challengeSubmissions db0 !! submissionId with
  | None =>
    (* no row is updated and [submission] is undefined *)
    match status with
    | approved => (db0, Thrown)           (* [submission.challengeId] throws *)
    | rejected => (db0, Returned)
    end
  | Some row =>
    match users db0 !! reviewerId with
    | None => (db0, Thrown)               (* reviewed_by refers to users.id *)
    | Some _ =>
      let submission :=
        Submission.mk (Submission.challengeId row) (Submission.userId row)
          (decision_status status) (Some reviewerId) (Some now) in
      let db := set_challengeSubmissions (insert submissionId submission) db0 in
      match status with
      | rejected => (db, Returned)
      | approved =>
        match challenges db !! Submission.challengeId submission with
        | None => (db, Returned)
        | Some challenge =>
          andThen db0
            (updateUserCredits (Submission.userId submission) (Challenge.reward challenge)
               "challenge_reward" ("Challenge completed: " +:+ Challenge.title challenge)
               (Some (Submission.challengeId submission)) now db)
            (λ db, (db, Returned))
        end
      end
    end
  end.

(** ** Betting settlement *)

(** [placeBet]: [id] is the key that [gen_random_uuid()] draws for the new
    row; [status] takes its default ["active"] and [payout] is null. *)
Definition placeBet (id : string) (bet : InsertBet.t) (now : Z) (db0 : Db) : Db * Outcome :=
  match bets db0 !! id with
  | Some _ => (db0, Thrown)               (* primary key *)
  | None =>
    match bettingEvents db0 !! InsertBet.eventId bet,
          bettingOptions db0 !! InsertBet.optionId bet,
          users db0 !! InsertBet.userId bet with
    | Some _, Some _, Some _ =>
      if negb (int4 (InsertBet.amount bet)) then (db0, Thrown) else
      let row :=
        Bet.mk (InsertBet.eventId bet) (InsertBet.optionId bet) (InsertBet.userId bet)
          (InsertBet.amount bet) "active" None in
      let db := set_bets (insert id row) db0 in
      andThen db0
        (updateUserCredits (InsertBet.userId bet) (- InsertBet.amount bet)
           "bet_placed" "Bet placed" (Some (InsertBet.eventId bet)) now db)
        (λ db, (db, Returned))
    | _, _, _ => (db0, Thrown)            (* a foreign key has no row to refer to *)
    end
  end.

Definition cancelBet (betId userId : string) (now : Z) (db0 : Db) : Db * Outcome :=
  match bets db0 !! betId with
  | None => (db0, Returned)
  | Some row =>
    if negb (String.eqb (Bet.userId row) userId) then (db0, Returned) else
    let bet :=
      Bet.mk (Bet.eventId row) (Bet.optionId row) (Bet.userId row) (Bet.amount row)
        "cancelled" (Bet.payout row) in
    let db := set_bets (insert betId bet) db0 in
    andThen db0
      (updateUserCredits userId (Bet.amount bet) "bet_cancelled"
         "Bet cancelled and refunded" (Some (Bet.eventId bet)) now db)
      (λ db, (db, Returned))
  end.

(** *** JavaScript numbers

    [Math.floor(bet.amount * parseFloat(option.multiplier))] is computed on
    IEEE 754 binary64 values. *)

Definition Number := spec_float.

(** An integer below [2^53] in magnitude is a Number as it is. *)
Definition Number_of_int (z : Z) : Number := binary_normalize 53 1024 z 0 false.

(** [parseFloat] of the text of a [decimal(10, 2)]: the Number nearest to
    [hundredths / 100], which is also what the correctly rounded quotient
    of the two integers is. *)
Definition parseFloat (hundredths : Z) : Number :=
  SFdiv 53 1024 (Number_of_int hundredths) (Number_of_int 100).

Definition Number_mul (x y : Number) : Number := SFmul 53 1024 x y.

(** [Math.floor]; [None] stands for NaN and the infinities, which no
    [integer] column takes. *)
Definition Math_floor (x : Number) : option Z :=
  match x with
  | S754_zero _ => Some 0
  | S754_finite s m e =>
    let v := if s then Z.neg m else Z.pos m in
    Some (if (0 <=? e)%Z then v * 2 ^ e else v `div` 2 ^ (- e))
  | S754_infinity _ | S754_nan => None
  end.

Definition compute_payout (amount multiplier : Z) : option Z :=
  Math_floor (Number_mul (Number_of_int amount) (parseFloat multiplier)).

Definition is_winning_bet (eventId winningOptionId : string) (bet : Bet.t) : bool :=
  String.eqb (Bet.eventId bet) eventId
  && String.eqb (Bet.optionId bet) winningOptionId
  && String.eqb (Bet.status bet) "active".

Definition is_losing_bet (eventId winningOptionId : string) (bet : Bet.t) : bool :=
  String.eqb (Bet.eventId bet) eventId
  && negb (String.eqb (Bet.optionId bet) winningOptionId)
  && String.eqb (Bet.status bet) "active".

(** The rows of [bets] joined with the option each refers to. *)
Definition bets_join_options (db : Db) : list (string * Bet.t * BettingOption.t) :=
  omap (λ '(id, bet), (λ option, (id, bet, option)) <$> bettingOptions db !! Bet.optionId bet)
       (map_to_list (bets db)).

Definition select_winningBets (eventId winningOptionId : string) (db : Db)
    : list (string * Bet.t * BettingOption.t) :=
  List.filter (λ '(_, bet, _), is_winning_bet eventId winningOptionId bet)
              (bets_join_options db).

Definition mark_won (payout : Z) (bet : Bet.t) : Bet.t :=
  Bet.mk (Bet.eventId bet) (Bet.optionId bet) (Bet.userId bet) (Bet.amount bet)
    "won" (Some payout).

Definition mark_lost (eventId winningOptionId : string) (bet : Bet.t) : Bet.t :=
  if is_losing_bet eventId winningOptionId bet
  then Bet.mk (Bet.eventId bet) (Bet.optionId bet) (Bet.userId bet) (Bet.amount bet)
         "lost" (Bet.payout bet)
  else bet.

(** The body of the loop over [winningBets]. *)
Definition pay_winner (eventId : string) (now : Z)
    (row : string * Bet.t * BettingOption.t) (db : Db) : Db * Outcome :=
  let '(id, bet, option) := row in
  match compute_payout (Bet.amount bet) (BettingOption.multiplier option) with
  | None => (db, Thrown)
  | Some payout =>
    if negb (int4 payout) then (db, Thrown) else
    updateUserCredits (Bet.userId bet) payout "bet_win" "Betting win payout"
      (Some eventId) now (set_bets (alter (mark_won payout) id) db)
  end.

Definition mark_resolved (winningOptionId : string) (now : Z) (event : BettingEvent.t)
    : BettingEvent.t :=
  BettingEvent.mk "resolved" (Some now) (Some winningOptionId).

Definition resolveBettingEvent (eventId winningOptionId adminId : string)
    (now : Z) (db0 : Db) : Db * Outcome :=
  let db := set_bettingEvents (alter (mark_resolved winningOptionId now) eventId) db0 in
  let winningBets := select_winningBets eventId winningOptionId db in
  andThen db0 (for_each (pay_winner eventId now) winningBets db)
    (λ db, (set_bets (fmap (mark_lost eventId winningOptionId)) db, Returned)).

(** ** Loan settlement *)

Definition fundLoan (loanId lenderId : string) (now : Z) (db0 : Db) : Db * Outcome :=
  match loans db0 !! loanId with
  | None => (db0, Returned)
  | Some row =>
    match users db0 !! lenderId with
    | None => (db0, Thrown)               (* lender_id refers to users.id *)
    | Some _ =>
      let loan :=
        Loan.mk (Loan.borrowerId row) (Some lenderId) (Loan.amount row)
          (Loan.totalRepayment row) "funded" (Some now) (Loan.repaidAt row) in
      let db := set_loans (insert loanId loan) db0 in
      andThen db0
        (updateUserCredits lenderId (- Loan.amount loan) "loan_funded"
           "Loan funded to another user" (Some loanId) now db)
        (λ db,
      andThen db0
        (updateUserCredits (Loan.borrowerId loan) (Loan.amount loan) "loan_received"
           "Loan received from another user" (Some loanId) now db)
        (λ db, (db, Returned)))
    end
  end.

(** A string is truthy unless it is empty. *)
Definition truthy (o : option string) : option string :=
  match o with
  | Some "" | None => None
  | Some s => Some s
  end.

Definition repayLoan (loanId : string) (now : Z) (db0 : Db) : Db * Outcome :=
  match loans db0 !! loanId with
  | None => (db0, Returned)
  | Some row =>
    let loan :=
      Loan.mk (Loan.borrowerId row) (Loan.lenderId row) (Loan.amount row)
        (Loan.totalRepayment row) "repaid" (Loan.fundedAt row) (Some now) in
    let db := set_loans (insert loanId loan) db0 in
    match truthy (Loan.lenderId loan) with
    | None => (db, Returned)
    | Some lenderId =>
      andThen db0
        (updateUserCredits (Loan.borrowerId loan) (- Loan.totalRepayment loan) "loan_repaid"
           "Loan repayment" (Some loanId) now db)
        (λ db,
      andThen db0
        (updateUserCredits lenderId (Loan.totalRepayment loan) "loan_repaid_received"
           "Loan repayment received" (Some loanId) now db)
        (λ db, (db, Returned)))
    end
  end.

(** ** The core operations

    A request as the database sees it: one [db.transaction], a method made
    of such transactions, or the loop of [processWeeklyStipends] over the
    rows of its selection. *)

Inductive Op :=
  | UpdateUserCredits (userId : string) (amount : Z) (type description : string)
      (referenceId : option string)
  | ProcessWeeklyStipends (eligibleUsers : list (string * User.t))
  | ReviewSubmission (submissionId : string) (status : Decision) (reviewerId : string)
  | PlaceBet (id : string) (bet : InsertBet.t)
  | CancelBet (betId userId : string)
  | ResolveBettingEvent (eventId winningOptionId adminId : string)
  | FundLoan (loanId lenderId : string)
  | RepayLoan (loanId : string).

Definition run (now : Z) (op : Op) (db : Db) : Db * Outcome :=
  match op with
  | UpdateUserCredits userId amount type description referenceId =>
    updateUserCredits userId amount type description referenceId now db
  | ProcessWeeklyStipends eligibleUsers => processWeeklyStipends now eligibleUsers db
  | ReviewSubmission submissionId status reviewerId =>
    reviewSubmission submissionId status reviewerId now db
  | PlaceBet id bet => placeBet id bet now db
  | CancelBet betId userId => cancelBet betId userId now db
  | ResolveBettingEvent eventId winningOptionId adminId =>
    resolveBettingEvent eventId winningOptionId adminId now db
  | FundLoan loanId lenderId => fundLoan loanId lenderId now db
  | RepayLoan loanId => repayLoan loanId now db
  end.

Fixpoint run_all (now : Z) (ops : list Op) (db : Db) : Db :=
  match ops with
  | [] => db
  | op :: ops' => run_all now ops' (run now op db).1
  end.

(** * The ledger invariants *)

Definition balances (db : Db) : gmap string Z := User.credits <$> users db.

(** The sum of the amounts of a player's entries. *)
Fixpoint sum_for (userId : string) (es : list CreditTransaction.t) : Z :=
  match es with
  | [] => 0
  | e :: es' =>
    (if String.eqb (CreditTransaction.userId e) userId then CreditTransaction.amount e else 0)
    + sum_for userId es'
  end.

(** The balance of the player [userId] is the sum of the player's entries. *)
Definition balanced (userId : string) (db : Db) : Prop :=
  ∀ u, users db !! userId = Some u →
    User.credits u = sum_for userId (creditTransactions db).

(** Replaying entries in creation order from the balances [bal]: every
    entry must carry in [balanceAfter] the balance of its player right
    after its amount was added; the result is the balances at the end. *)
Fixpoint replay (bal : gmap string Z) (es : list CreditTransaction.t)
    : option (gmap string Z) :=
  match es with
  | [] => Some bal
  | e :: es' =>
    match bal !! CreditTransaction.userId e with
    | None => None
    | Some b =>
      if (CreditTransaction.balanceAfter e =? b + CreditTransaction.amount e)%Z
      then replay (<[CreditTransaction.userId e := CreditTransaction.balanceAfter e]> bal) es'
      else None
    end
  end.

(** The newest entry of every player carries the player's balance. *)
Definition newest_snapshot_current (db : Db) : Prop :=
  ∀ older e newer,
    creditTransactions db = older ++ e :: newer →
    (∀ e', e' ∈ newer → CreditTransaction.userId e' ≠ CreditTransaction.userId e) →
    balances db !! CreditTransaction.userId e = Some (CreditTransaction.balanceAfter e).

(** [db'] comes from [db] by ledger applications only: entries were
    appended, each with the right snapshot, and the balances moved along. *)
Definition extends (db db' : Db) : Prop :=
  ∃ new, creditTransactions db' = creditTransactions db ++ new
         ∧ replay (balances db) new = Some (balances db').

(** [db'] comes from [db] by credits and their entries: entries were
    appended, and the balance of every player moved by the amounts of the
    player's new entries.  Nothing is said of the snapshots. *)
Definition applied (db db' : Db) : Prop :=
  ∃ new, creditTransactions db' = creditTransactions db ++ new
         ∧ ∀ userId,
             balances db' !! userId
             = (λ b, b + sum_for userId new) <$> balances db !! userId.

(** The entries that [db'] has on top of those of [db]. *)
Definition new_entries (db db' : Db) : list CreditTransaction.t :=
  drop (length (creditTransactions db)) (creditTransactions db').

(** The tables that bet settlement only reads. *)
Definition same_catalog (db db' : Db) : Prop :=
  challenges db' = challenges db
  ∧ challengeSubmissions db' = challengeSubmissions db
  ∧ bettingOptions db' = bettingOptions db
  ∧ loans db' = loans db.

(** The entry that pays [payout] to the player of [bet]. *)
Definition win_entry (eventId : string) (bet : Bet.t) (payout balanceAfter : Z)
    : CreditTransaction.t :=
  CreditTransaction.mk (Bet.userId bet) payout "bet_win" (Some eventId)
    "Betting win payout" balanceAfter.

(** [e] pays one of the selected winning bets what [compute_payout] gives. *)
Definition is_payout_of (eventId : string) (rows : list (string * Bet.t * BettingOption.t))
    (e : CreditTransaction.t) : Prop :=
  ∃ id bet option payout,
    (id, bet, option) ∈ rows
    ∧ compute_payout (Bet.amount bet) (BettingOption.multiplier option) = Some payout
    ∧ e = win_entry eventId bet payout (CreditTransaction.balanceAfter e).

(** [e] is the entry that pays the selected winning bet [row] what
    [compute_payout] gives. *)
Definition pays (eventId : string) (row : string * Bet.t * BettingOption.t)
    (e : CreditTransaction.t) : Prop :=
  ∃ payout,
    compute_payout (Bet.amount row.1.2) (BettingOption.multiplier row.2) = Some payout
    ∧ e = win_entry eventId row.1.2 payout (CreditTransaction.balanceAfter e).

(** What the selected winning bets of the player [userId] pay together. *)
Definition total_payout (userId : string) (rows : list (string * Bet.t * BettingOption.t))
    : Z :=
  foldr
    (λ '(_, bet, option) sum,
       (if String.eqb (Bet.userId bet) userId
        then default 0 (compute_payout (Bet.amount bet) (BettingOption.multiplier option))
        else 0)
       + sum)
    0 rows.

(** The payout as the specification words it: the floor of the amount
    times the decimal multiplier, over the integers. *)
Definition exact_payout (amount multiplier : Z) : Z := (amount * multiplier) `div` 100.

(** No bet on the event is active. *)
Definition no_active_bet (eventId : string) (db : Db) : Prop :=
  ∀ id bet, bets db !! id = Some bet → Bet.eventId bet = eventId →
    Bet.status bet ≠ "active".

(** What a successful [placeBet] adds to [db]: the bet, active and
    without payout, and the debit of its amount from [player]. *)
Definition bet_placed_in (id : string) (bet : InsertBet.t) (now : Z) (player : User.t)
    (db db' : Db) : Prop :=
  bets db'
  = <[id :=
        Bet.mk (InsertBet.eventId bet) (InsertBet.optionId bet) (InsertBet.userId bet)
          (InsertBet.amount bet) "active" None]>
      (bets db)
  ∧ creditTransactions db'
    = creditTransactions db ++
      [ CreditTransaction.mk (InsertBet.userId bet) (- InsertBet.amount bet) "bet_placed"
          (Some (InsertBet.eventId bet)) "Bet placed"
          (User.credits player - InsertBet.amount bet) ]
  ∧ users db'
    = <[InsertBet.userId bet :=
          User.mk (User.credits player - InsertBet.amount bet)
            (User.lastStipendDate player) (Some now)]>
        (users db).

(** Every bet refers to an option that exists, as the foreign key of
    [bets.option_id] has it. *)
Definition bets_have_options (db : Db) : Prop :=
  ∀ id bet, bets db !! id = Some bet → is_Some (bettingOptions db !! Bet.optionId bet).

(** A small database used to exercise the theorems: two players whose
    balances are what their entries add up to, one open event with two
    options, and a pending loan. *)
Definition sample_db : Db :=
  mkDb
    {[ "alice" := User.mk 700 None None; "bob" := User.mk 500 None None ]}
    {[ "c1" := Challenge.mk "Run a mile" 50 ]}
    {[ "s1" := Submission.mk "c1" "alice" "pending" None None ]}
    {[ "ev" := BettingEvent.mk "open" None None ]}
    {[ "yes" := BettingOption.mk "ev" 200; "no" := BettingOption.mk "ev" 115 ]}
    {[ "b1" := Bet.mk "ev" "yes" "alice" 300 "active" None ]}
    {[ "l1" := Loan.mk "bob" None 500 550 "pending" None None ]}
    [ CreditTransaction.mk "alice" 1000 "challenge_reward" None "Welcome" 1000;
      CreditTransaction.mk "bob" 500 "challenge_reward" None "Welcome" 500;
      CreditTransaction.mk "alice" (-300) "bet_placed" (Some "ev") "Bet placed" 700 ].

(** * The other methods of [DatabaseStorage]

    Methods that return a value give [None] when they throw.  Listing
    queries give their rows by primary key: the [created_at] and
    [submitted_at] columns they are ordered by are not kept here. *)

(** ** Loans *)

Module InsertLoan.
Record t := mk {
  borrowerId : string;
  amount : Z;
  interestRate : Z;
  totalRepayment : Z;
  dueDate : Z;
  purpose : option string
}.
End InsertLoan.

(** [createLoan]: [id] is the key drawn for the new row; [status] takes its
    default ["pending"], the lender and the two timestamps are null. *)
Definition createLoan (id : string) (loan : InsertLoan.t) (db : Db) : Db * option Loan.t :=
  match loans db !! id with
  | Some _ => (db, None)                  (* primary key *)
  | None =>
    match users db !! InsertLoan.borrowerId loan with
    | None => (db, None)                  (* borrower_id refers to users.id *)
    | Some _ =>
      if int4 (InsertLoan.amount loan) && int4 (InsertLoan.interestRate loan)
         && int4 (InsertLoan.totalRepayment loan)
      then
        let created :=
          Loan.mk (InsertLoan.borrowerId loan) None (InsertLoan.amount loan)
            (InsertLoan.totalRepayment loan) "pending" None None in
        (set_loans (insert id created) db, Some created)
      else (db, None)
    end
  end.

Definition getPendingLoans (db : Db) : gmap string (Loan.t * User.t) :=
  omap (λ loan,
          if String.eqb (Loan.status loan) "pending"
          then (λ borrower, (loan, borrower)) <$> users db !! Loan.borrowerId loan
          else None)
       (loans db).

(** ** Challenge submissions *)

Module InsertSubmission.
Record t := mk {
  challengeId : string;
  userId : string;
  proofText : string;
  proofUrl : option string
}.
End InsertSubmission.

Definition createSubmission (id : string) (submission : InsertSubmission.t) (db : Db)
    : Db * option Submission.t :=
  match challengeSubmissions db !! id with
  | Some _ => (db, None)                  (* primary key *)
  | None =>
    match challenges db !! InsertSubmission.challengeId submission,
          users db !! InsertSubmission.userId submission with
    | Some _, Some _ =>
      let created :=
        Submission.mk (InsertSubmission.challengeId submission)
          (InsertSubmission.userId submission) "pending" None None in
      (set_challengeSubmissions (insert id created) db, Some created)
    | _, _ => (db, None)                  (* a foreign key has no row to refer to *)
    end
  end.

Definition getPendingSubmissions (db : Db)
    : gmap string (Submission.t * Challenge.t * User.t) :=
  omap (λ submission,
          if String.eqb (Submission.status submission) "pending"
          then
            challenge ← challenges db !! Submission.challengeId submission;
            user ← users db !! Submission.userId submission;
            Some (submission, challenge, user)
          else None)
       (challengeSubmissions db).

(** ** Statistics *)

Module UserStats.
Record t := mk {
  totalWagered : Z;
  totalWon : Z;
  winRate : Number;
  activeBets : Z;
  totalStaked : Z;
  rank : Z;
  totalUsers : Z
}.
End UserStats.

Definition select_userBets (userId : string) (db : Db) : list Bet.t :=
  List.filter (λ bet, String.eqb (Bet.userId bet) userId) (map_to_list (bets db)).*2.

(** [bet.payout || 0] *)
Definition payout_or_0 (bet : Bet.t) : Z :=
  match Bet.payout bet with
  | Some payout => payout
  | None => 0
  end.

(** One more than the count of the rows of [users] whose credits exceed
    [SELECT credits FROM users WHERE id = userId]: without a row for
    [userId] the inner select is null and the comparison holds for no row. *)
Definition select_rank (userId : string) (db : Db) : Z :=
  match users db !! userId with
  | None => 0 + 1
  | Some u =>
    Z.of_nat
      (length (List.filter (λ row : string * User.t, User.credits u <? User.credits row.2)
                 (map_to_list (users db))))
    + 1
  end.

(** The sums are over [integer] columns and stay integers as long as they
    are below [2^53]. *)
Definition getUserStats (userId : string) (db : Db) : option UserStats.t :=
  let userBets := select_userBets userId db in
  let totalWagered := foldl (λ sum bet, sum + Bet.amount bet) 0 userBets in
  let wonBets := List.filter (λ bet, String.eqb (Bet.status bet) "won") userBets in
  let totalWon := foldl (λ sum bet, sum + payout_or_0 bet) 0 wonBets in
  let winRate :=
    if (0 <? Z.of_nat (length userBets))%Z
    then Number_mul
           (SFdiv 53 1024 (Number_of_int (Z.of_nat (length wonBets)))
              (Number_of_int (Z.of_nat (length userBets))))
           (Number_of_int 100)
    else Number_of_int 0 in
  let activeBets := List.filter (λ bet, String.eqb (Bet.status bet) "active") userBets in
  let totalStaked := foldl (λ sum bet, sum + Bet.amount bet) 0 activeBets in
  let totalUsers := Z.of_nat (size (users db)) in
  match map_to_list (users db) with
  | [] => None                            (* no row to take [rank] from *)
  | _ :: _ =>
    Some (UserStats.mk totalWagered totalWon winRate (Z.of_nat (length activeBets))
            totalStaked (select_rank userId db) totalUsers)
  end.

(** ** Leaderboard *)

Module LeaderboardRow.
Record t := mk {
  id : string;
  user : User.t;
  challengesCompleted : Z;
  weeklyChange : Z
}.
End LeaderboardRow.

(** [ORDER BY credits DESC]; rows with equal credits come in the order the
    sort leaves them in. *)
Definition by_credits_desc (a b : string * User.t) : Prop :=
  User.credits b.2 ≤ User.credits a.2.

Global Instance by_credits_desc_dec : RelDecision by_credits_desc.
Proof. intros a b. unfold by_credits_desc. apply _. Defined.

(** The subquery of [challengesCompleted].  A query on one table is
    written without the names of tables, so that the condition reads
    [user_id = id] inside a [SELECT] from [challenge_submissions]: there
    [id] is the key of the submission, not the key of the player.  The
    count is that of the approved submissions whose [user_id] is their own
    key, whatever the row of [users] it is selected for. *)
Definition count_approved (db : Db) : Z :=
  Z.of_nat
    (length
       (List.filter
          (λ row : string * Submission.t,
             String.eqb (Submission.userId row.2) row.1
             && String.eqb (Submission.status row.2) "approved")
          (map_to_list (challengeSubmissions db)))).

Definition getLeaderboard (db : Db) : list LeaderboardRow.t :=
  (λ row : string * User.t, LeaderboardRow.mk row.1 row.2 (count_approved db) 0)
  <$> take 100 (merge_sort by_credits_desc (map_to_list (users db))).

(** ** Totals *)

(** The credits of all players together. *)
Definition total_credits (db : Db) : Z :=
  foldr (λ row sum, User.credits row.2 + sum) 0 (map_to_list (users db)).

(** The amounts of a list of entries together. *)
Definition total_amount (es : list CreditTransaction.t) : Z :=
  foldr (λ e sum, CreditTransaction.amount e + sum) 0 es.

(** Every balance fits the [integer] column. *)
Definition balances_in_range (db : Db) : Prop :=
  ∀ id u, users db !! id = Some u → int4 (User.credits u) = true.

(** The tables written through [tx] are the same in [db] and [db']. *)
Definition same_tables (db db' : Db) : Prop :=
  challenges db' = challenges db
  ∧ challengeSubmissions db' = challengeSubmissions db
  ∧ bettingEvents db' = bettingEvents db
  ∧ bettingOptions db' = bettingOptions db
  ∧ bets db' = bets db
  ∧ loans db' = loans db.

(** The foreign keys of [shared/schema] over the columns kept. *)
Definition references_hold (db : Db) : Prop :=
  (∀ id s, challengeSubmissions db !! id = Some s →
     is_Some (challenges db !! Submission.challengeId s)
     ∧ is_Some (users db !! Submission.userId s)
     ∧ ∀ reviewer, Submission.reviewedBy s = Some reviewer → is_Some (users db !! reviewer))
  ∧ (∀ id o, bettingOptions db !! id = Some o →
       is_Some (bettingEvents db !! BettingOption.eventId o))
  ∧ (∀ id b, bets db !! id = Some b →
       is_Some (bettingEvents db !! Bet.eventId b)
       ∧ is_Some (bettingOptions db !! Bet.optionId b)
       ∧ is_Some (users db !! Bet.userId b))
  ∧ (∀ id l, loans db !! id = Some l →
       is_Some (users db !! Loan.borrowerId l)
       ∧ ∀ lender, Loan.lenderId l = Some lender → is_Some (users db !! lender))
  ∧ (∀ e, e ∈ creditTransactions db → is_Some (users db !! CreditTransaction.userId e)).

(** [db] holds its references and has every player of [db0]. *)
Definition references_kept (db0 db : Db) : Prop :=
  references_hold db ∧ ∀ k, is_Some (users db0 !! k) → is_Some (users db !! k).


(** The rows are what a selection on [db] gives: one row for a key, with
    the credits the player has in [db]. *)
Definition fresh_rows (rows : list (string * User.t)) (db : Db) : Prop :=
  NoDup rows.*1
  ∧ ∀ id user, (id, user) ∈ rows →
      ∃ u, users db !! id = Some u ∧ User.credits u = User.credits user.

(** No request was served between the selection of the rows that [op]
    works on and [op] itself. *)
Definition reads_fresh (op : Op) (db : Db) : Prop :=
  match op with
  | ProcessWeeklyStipends eligibleUsers => fresh_rows eligibleUsers db
  | _ => True
  end.

(** ** Betting events with their options and the number of their bets

    [getBettingEvents] joins every event with the options that refer to it
    and with the number of rows of [bets] that refer to it.  The result is
    kept by event id; its order (newest event first) is over a column that
    is not kept here. *)

Module BettingEventRow.
Record t := mk {
  event : BettingEvent.t;
  options : gmap string BettingOption.t;
  totalBets : Z
}.
End BettingEventRow.

(** The count of the rows of [bets] with this [event_id]. *)
Definition count_bets (eventId : string) (db : Db) : Z :=
  Z.of_nat
    (length
       (List.filter (λ bet, String.eqb (Bet.eventId bet) eventId)
          (map_to_list (bets db)).*2)).

Definition getBettingEvents (db : Db) : gmap string BettingEventRow.t :=
  map_imap
    (λ id event,
       Some (BettingEventRow.mk event
               (filter (λ row : string * BettingOption.t, BettingOption.eventId row.2 = id)
                  (bettingOptions db))
               (count_bets id db)))
    (bettingEvents db).

(** * The routes that change the database

    The handlers of [registerRoutes] that sit behind [isAuthenticated]:
    [sub] is the id of the caller, [req.user.claims.sub].  A handler
    answers with a status and a message; its body is inside [try], and
    whatever is thrown is answered with 500.  Request bodies are taken as
    they come out of the [parse] of their schema. *)

Module Response.
Record t := mk {
  status : Z;
  message : string
}.
End Response.

(** [res.json({ message: ok })], or the [catch] branch. *)
Definition answer (ok failed : string) (r : Db * Outcome) : Db * Response.t :=
  match r with
  | (db, Returned) => (db, Response.mk 200 ok)
  | (db, Thrown) => (db, Response.mk 500 failed)
  end.

(** [insertBetSchema.parse({ ...req.body, userId: sub })]: [id] is the
    key drawn for the new row. *)
Definition post_bets (sub : string) (id : string) (body : InsertBet.t)
    (now : Z) (db : Db) : Db * Response.t :=
  answer "Bet placed successfully" "Failed to place bet"
    (placeBet id
       (InsertBet.mk (InsertBet.eventId body) (InsertBet.optionId body) sub
          (InsertBet.amount body))
       now db).

Definition delete_bets (sub betId : string) (now : Z) (db : Db) : Db * Response.t :=
  answer "Bet cancelled successfully" "Failed to cancel bet" (cancelBet betId sub now db).

Section Ledger.

Implicit Types (bal : gmap string Z) (es : list CreditTransaction.t) (db : Db).

Lemma sum_for_app userId es1 es2 :
  sum_for userId (es1 ++ es2) = sum_for userId es1 + sum_for userId es2.
Proof. induction es1 as [|e es1 IH]; simpl; lia. Qed.

Lemma replay_app bal es1 es2 :
  replay bal (es1 ++ es2) = replay bal es1 ≫= λ bal', replay bal' es2.
Proof.
  revert bal. induction es1 as [|e es1 IH]; intros bal; cbn [replay app]; [done|].
  destruct (bal !! _); [|done]. case_match; [apply IH|done].
Qed.

Lemma replay_sum bal es bal' userId :
  replay bal es = Some bal' →
  bal' !! userId = (λ b, b + sum_for userId es) <$> bal !! userId.
Proof.
  revert bal. induction es as [|e es IH]; intros bal; cbn [replay sum_for].
  - intros [= <-]. destruct (bal !! userId); simpl; f_equal; lia.
  - destruct (bal !! CreditTransaction.userId e) as [b|] eqn:Hb; [|done].
    destruct (Z.eqb_spec (CreditTransaction.balanceAfter e)
                (b + CreditTransaction.amount e)) as [Hs|]; [|done].
    intros Hr. rewrite (IH _ Hr).
    destruct (String.eqb_spec (CreditTransaction.userId e) userId) as [<-|Hne].
    + rewrite lookup_insert_eq, Hb. simpl. f_equal. lia.
    + rewrite lookup_insert_ne by done.
      destruct (bal !! userId); simpl; f_equal; lia.
Qed.

(** A player without an entry in [es] keeps the balance. *)
Lemma replay_untouched bal es bal' userId :
  replay bal es = Some bal' →
  (∀ e, e ∈ es → CreditTransaction.userId e ≠ userId) →
  bal' !! userId = bal !! userId.
Proof.
  revert bal. induction es as [|e es IH]; intros bal; cbn [replay].
  - by intros [= <-].
  - destruct (bal !! CreditTransaction.userId e) as [b|] eqn:Hb; [|done].
    case_match; [|done]. intros Hr Hne.
    rewrite (IH _ Hr), lookup_insert_ne; [done| |].
    + apply Hne. left.
    + intros e' He'. apply Hne. by right.
Qed.

(** The last entry of a player in [es] carries the final balance. *)
Lemma replay_newest bal older e newer bal' :
  replay bal (older ++ e :: newer) = Some bal' →
  (∀ e', e' ∈ newer → CreditTransaction.userId e' ≠ CreditTransaction.userId e) →
  bal' !! CreditTransaction.userId e = Some (CreditTransaction.balanceAfter e).
Proof.
  rewrite replay_app. destruct (replay bal older) as [bal1|]; cbn [mbind option_bind replay]; [|done].
  destruct (bal1 !! CreditTransaction.userId e) as [b|]; [|done].
  case_match; [|done]. intros Hr Hne.
  rewrite (replay_untouched _ _ _ _ Hr Hne). apply lookup_insert_eq.
Qed.

Lemma extends_refl db : extends db db.
Proof. exists []. by rewrite app_nil_r. Qed.

Lemma extends_trans db1 db2 db3 : extends db1 db2 → extends db2 db3 → extends db1 db3.
Proof.
  intros (n1 & E1 & R1) (n2 & E2 & R2). exists (n1 ++ n2). split.
  - by rewrite E2, E1, app_assoc.
  - by rewrite replay_app, R1.
Qed.

(** Only [users] and [creditTransactions] matter. *)
Lemma extends_eq db1 db2 db2' :
  users db2' = users db2 → creditTransactions db2' = creditTransactions db2 →
  extends db1 db2 → extends db1 db2'.
Proof.
  intros Hu Hc (n & E & R). exists n. unfold balances in *. by rewrite Hu, Hc.
Qed.

Lemma extends_eq_l db1 db1' db2 :
  users db1' = users db1 → creditTransactions db1' = creditTransactions db1 →
  extends db1 db2 → extends db1' db2.
Proof.
  intros Hu Hc (n & E & R). exists n. unfold balances in *. by rewrite Hu, Hc.
Qed.

(** One application: the balance and its entry move together. *)
Lemma extends_apply db userId u u' e :
  users db !! userId = Some u →
  CreditTransaction.userId e = userId →
  User.credits u' = User.credits u + CreditTransaction.amount e →
  CreditTransaction.balanceAfter e = User.credits u' →
  extends db (add_creditTransaction e (set_users (insert userId u') db)).
Proof.
  intros Hu He Hc Hb. exists [e]. split; [done|]. cbn [replay].
  unfold balances at 1. rewrite He, lookup_fmap, Hu. simpl.
  rewrite Hb, Hc, Z.eqb_refl. unfold balances. simpl.
  by rewrite fmap_insert, Hc.
Qed.

Lemma updateUserCredits_cases userId amount type description referenceId now db :
  updateUserCredits userId amount type description referenceId now db = (db, Thrown)
  ∨ ∃ u, users db !! userId = Some u
      ∧ int4 amount = true ∧ int4 (User.credits u + amount) = true
      ∧ updateUserCredits userId amount type description referenceId now db =
        (add_creditTransaction
           (CreditTransaction.mk userId amount type referenceId description
              (User.credits u + amount))
           (set_users
              (insert userId
                 (User.mk (User.credits u + amount) (User.lastStipendDate u) (Some now)))
              db),
         Returned).
Proof.
  unfold updateUserCredits.
  destruct (int4 amount) eqn:Ha; simpl; [|by left].
  destruct (users db !! userId) as [u|] eqn:Hu; [|by left].
  destruct (int4 (User.credits u + amount)) eqn:Hc; simpl; [|by left].
  right. by exists u.
Qed.

Lemma updateUserCredits_returns userId amount type description referenceId now db u :
  users db !! userId = Some u →
  int4 amount = true →
  int4 (User.credits u + amount) = true →
  updateUserCredits userId amount type description referenceId now db =
  (add_creditTransaction
     (CreditTransaction.mk userId amount type referenceId description
        (User.credits u + amount))
     (set_users
        (insert userId
           (User.mk (User.credits u + amount) (User.lastStipendDate u) (Some now)))
        db),
   Returned).
Proof.
  intros Hu Ha Hc. unfold updateUserCredits. rewrite Ha, Hu. simpl. by rewrite Hc.
Qed.

(** When it throws, [updateUserCredits] has changed nothing. *)
Lemma updateUserCredits_throws userId amount type description referenceId now db db' :
  updateUserCredits userId amount type description referenceId now db = (db', Thrown) →
  db' = db.
Proof.
  destruct (updateUserCredits_cases userId amount type description referenceId now db)
    as [->|(u & _ & _ & _ & ->)]; congruence.
Qed.

Lemma updateUserCredits_extends userId amount type description referenceId now db :
  extends db (updateUserCredits userId amount type description referenceId now db).1.
Proof.
  destruct (updateUserCredits_cases userId amount type description referenceId now db)
    as [->|(u & Hu & _ & _ & ->)]; simpl.
  - apply extends_refl.
  - by eapply extends_apply.
Qed.

Lemma andThen_extends db0 db r k :
  extends db r.1 → (∀ db1, extends db1 (k db1).1) → extends db (andThen db0 r k).1.
Proof.
  intros Hr Hk. destruct r as [db1 []]; simpl in *.
  - eapply extends_trans; [exact Hr|apply Hk].
  - by eapply extends_eq; [| |exact Hr].
Qed.

Lemma for_each_extends {A} (body : A → Db → Db * Outcome) xs db :
  (∀ x db1, extends db1 (body x db1).1) → extends db (for_each body xs db).1.
Proof.
  intros Hbody. revert db. induction xs as [|x xs IH]; intros db; simpl.
  - apply extends_refl.
  - specialize (Hbody x db). destruct (body x db) as [db1 []]; simpl in *.
    + eapply extends_trans; [exact Hbody|apply IH].
    + exact Hbody.
Qed.

End Ledger.

(** ** Every operation goes through the ledger *)

Section Operations.

Implicit Types (db : Db) (now : Z).

(** A callback that starts by writing another table through [tx] and
    then applies credits. *)
Local Ltac through_ledger :=
  repeat first
    [ apply extends_refl
    | apply andThen_extends; [|intros ?]
    | eapply extends_eq_l; [| |apply updateUserCredits_extends]; reflexivity
    | apply updateUserCredits_extends
    | progress simpl ].

Lemma reviewSubmission_extends submissionId status reviewerId now db :
  extends db (reviewSubmission submissionId status reviewerId now db).1.
Proof.
  unfold reviewSubmission. repeat case_match; simpl; subst; through_ledger.
  by eapply extends_eq; [| |apply extends_refl].
  by eapply extends_eq; [| |apply extends_refl].
Qed.

Lemma placeBet_extends id bet now db : extends db (placeBet id bet now db).1.
Proof. unfold placeBet. repeat case_match; simpl; through_ledger. Qed.

Lemma cancelBet_extends betId userId now db :
  extends db (cancelBet betId userId now db).1.
Proof. unfold cancelBet. repeat case_match; simpl; through_ledger. Qed.

Lemma pay_winner_extends eventId now row db :
  extends db (pay_winner eventId now row db).1.
Proof.
  destruct row as [[id bet] option]. unfold pay_winner.
  repeat case_match; simpl; through_ledger.
Qed.

Lemma resolveBettingEvent_extends eventId winningOptionId adminId now db :
  extends db (resolveBettingEvent eventId winningOptionId adminId now db).1.
Proof.
  unfold resolveBettingEvent. apply andThen_extends.
  - eapply extends_eq_l; [| |apply for_each_extends, pay_winner_extends]; reflexivity.
  - intros db1. by eapply extends_eq; [| |apply extends_refl].
Qed.

Lemma fundLoan_extends loanId lenderId now db :
  extends db (fundLoan loanId lenderId now db).1.
Proof. unfold fundLoan. repeat case_match; simpl; through_ledger. Qed.

Lemma repayLoan_extends loanId now db : extends db (repayLoan loanId now db).1.
Proof.
  unfold repayLoan. repeat case_match; simpl; through_ledger.
  by eapply extends_eq; [| |apply extends_refl].
Qed.

(** The stipend loop writes the snapshot [user.credits + 200] of a row
    read before the loop; no two rows of the selection share a key and a
    pass changes the row of its own key only, so the row is still what
    was read when its turn comes. *)
Lemma stipend_loop_extends now (rows : list (string * User.t)) db :
  NoDup rows.*1 →
  (∀ id user, (id, user) ∈ rows →
     ∃ u, users db !! id = Some u ∧ User.credits u = User.credits user) →
  extends db (for_each (stipend_transaction now) rows db).1.
Proof.
  revert db. induction rows as [|[id user] rows IH]; intros db Hnd Hrows; simpl.
  { apply extends_refl. }
  apply NoDup_cons in Hnd as [Hid Hnd].
  destruct (Hrows id user) as (u & Hu & Hcr); [left|].
  rewrite Hu, Hcr.
  destruct (int4 (User.credits user + 200)); simpl; [|apply extends_refl].
  eapply extends_trans; [|apply IH; [done|]].
  - eapply extends_apply; [exact Hu|done|simpl; lia|done].
  - intros id' user' Hin. simpl.
    destruct (Hrows id' user') as (u2 & Hu2 & Hcr2); [by right|].
    exists u2. split; [|done]. rewrite lookup_insert_ne; [done|].
    intros ->. apply Hid. apply list_elem_of_fmap. by exists (id', user').
Qed.

Lemma NoDup_fst_filter {A B} (f : A * B → bool) (l : list (A * B)) :
  NoDup l.*1 → NoDup (List.filter f l).*1.
Proof.
  induction l as [|x l IH]; simpl; [done|].
  intros [Hx Hl]%NoDup_cons. destruct (f x); simpl; [|by apply IH].
  apply NoDup_cons. split; [|by apply IH].
  intros ([a b] & Hab & Hin)%list_elem_of_fmap. apply Hx.
  apply list_elem_of_fmap. exists (a, b). split; [done|].
  apply list_elem_of_In, filter_In in Hin as [Hin _]. by apply list_elem_of_In.
Qed.

Lemma processWeeklyStipends_extends now rows db :
  fresh_rows rows db → extends db (processWeeklyStipends now rows db).1.
Proof. intros [Hnd Hrows]. by apply stipend_loop_extends. Qed.

(** The rows of a selection on [db] are fresh for [db], in whatever order
    they come. *)
Lemma select_eligibleUsers_fresh offset now rows db :
  rows ≡ₚ select_eligibleUsers offset now db → fresh_rows rows db.
Proof.
  intros Hperm. split.
  - rewrite Hperm. apply NoDup_fst_filter, NoDup_fst_map_to_list.
  - intros id user Hin. rewrite Hperm in Hin. exists user. split; [|done].
    apply list_elem_of_In, filter_In in Hin as [Hin _].
    by apply list_elem_of_In, elem_of_map_to_list in Hin.
Qed.

Lemma run_extends now op db : reads_fresh op db → extends db (run now op db).1.
Proof.
  destruct op; simpl; intros Hfresh.
  - apply updateUserCredits_extends.
  - by apply processWeeklyStipends_extends.
  - apply reviewSubmission_extends.
  - apply placeBet_extends.
  - apply cancelBet_extends.
  - apply resolveBettingEvent_extends.
  - apply fundLoan_extends.
  - apply repayLoan_extends.
Qed.

End Operations.

(** ** Every operation is made of single applications

    A relation between databases that only looks at [users] and
    [creditTransactions], is reflexive and transitive and holds across one
    [updateUserCredits] and across one pass of the stipend loop, whatever
    row the pass was given, holds across every operation. *)
Section Applications.

Variable R : Db → Db → Prop.
Hypothesis R_refl : ∀ db, R db db.
Hypothesis R_trans : ∀ db1 db2 db3, R db1 db2 → R db2 db3 → R db1 db3.
Hypothesis R_right : ∀ db1 db2 db2',
  users db2' = users db2 → creditTransactions db2' = creditTransactions db2 →
  R db1 db2 → R db1 db2'.
Hypothesis R_left : ∀ db1 db1' db2,
  users db1' = users db1 → creditTransactions db1' = creditTransactions db1 →
  R db1 db2 → R db1' db2.
Hypothesis R_update : ∀ userId amount type description referenceId now db,
  R db (updateUserCredits userId amount type description referenceId now db).1.
Hypothesis R_stipend : ∀ now row db, R db (stipend_transaction now row db).1.

Lemma andThen_applications db0 db r k :
  R db r.1 → (∀ db1, R db1 (k db1).1) → R db (andThen db0 r k).1.
Proof.
  intros Hr Hk. destruct r as [db1 []]; simpl in *.
  - eapply R_trans; [exact Hr|apply Hk].
  - by eapply R_right; [| |exact Hr].
Qed.

Lemma for_each_applications {A} (body : A → Db → Db * Outcome) xs db :
  (∀ x db1, R db1 (body x db1).1) → R db (for_each body xs db).1.
Proof.
  intros Hbody. revert db. induction xs as [|x xs IH]; intros db; simpl.
  - apply R_refl.
  - specialize (Hbody x db). destruct (body x db) as [db1 []]; simpl in *.
    + eapply R_trans; [exact Hbody|apply IH].
    + exact Hbody.
Qed.

Local Ltac through_applications :=
  repeat first
    [ apply R_refl
    | apply andThen_applications; [|intros ?]
    | eapply R_left; [| |apply R_update]; reflexivity
    | apply R_update
    | progress simpl ].

Lemma run_applications now op db : R db (run now op db).1.
Proof.
  destruct op; simpl.
  - apply R_update.
  - apply for_each_applications, R_stipend.
  - unfold reviewSubmission. repeat case_match; simpl; subst; through_applications;
      by eapply R_right; [| |apply R_refl].
  - unfold placeBet. repeat case_match; simpl; through_applications.
  - unfold cancelBet. repeat case_match; simpl; through_applications.
  - unfold resolveBettingEvent. apply andThen_applications.
    + eapply R_left; [| |apply for_each_applications]; [reflexivity..|].
      intros [[id bet] option] db1. unfold pay_winner.
      repeat case_match; simpl; through_applications.
    + intros db1. by eapply R_right; [| |apply R_refl].
  - unfold fundLoan. repeat case_match; simpl; through_applications.
  - unfold repayLoan. repeat case_match; simpl; through_applications;
      by eapply R_right; [| |apply R_refl].
Qed.

End Applications.

(** ** Balances follow the entries *)

Lemma extends_applied db db' : extends db db' → applied db db'.
Proof.
  intros (new & Hnew & Hreplay). exists new. split; [done|].
  intros userId. by apply replay_sum.
Qed.

Lemma applied_trans db1 db2 db3 : applied db1 db2 → applied db2 db3 → applied db1 db3.
Proof.
  intros (n1 & E1 & B1) (n2 & E2 & B2). exists (n1 ++ n2). split.
  - by rewrite E2, E1, app_assoc.
  - intros userId. rewrite B2, B1, sum_for_app.
    destruct (balances db1 !! userId); simpl; f_equal; lia.
Qed.

(** One pass of the stipend loop: 200 go to the balance as it is, and 200
    is the amount of the entry, whatever snapshot the entry carries. *)
Lemma stipend_transaction_applied now row db :
  applied db (stipend_transaction now row db).1.
Proof.
  destruct row as [id user]. unfold stipend_transaction.
  destruct (users db !! id) as [u|] eqn:Hu; [|apply extends_applied, extends_refl].
  repeat case_match; simpl; try apply extends_applied, extends_refl.
  eexists [_]. split; [done|]. intros userId. unfold balances. simpl.
  rewrite fmap_insert. simpl.
  destruct (String.eqb_spec id userId) as [<-|Hne].
  - rewrite lookup_insert_eq, lookup_fmap, Hu. simpl. f_equal; lia.
  - rewrite lookup_insert_ne by done.
    destruct ((User.credits <$> users db) !! userId); simpl; f_equal; lia.
Qed.

Lemma run_applied now op db : applied db (run now op db).1.
Proof.
  apply (run_applications applied).
  - intros db1. apply extends_applied, extends_refl.
  - apply applied_trans.
  - intros ??? Hu Hc (n & E & B). exists n. unfold balances in *. by rewrite Hu, Hc.
  - intros ??? Hu Hc (n & E & B). exists n. unfold balances in *. by rewrite Hu, Hc.
  - intros. apply extends_applied, updateUserCredits_extends.
  - apply stipend_transaction_applied.
Qed.

(** ** Resolving a betting event *)

Section Resolution.

Implicit Types (db : Db) (now : Z) (rows : list (string * Bet.t * BettingOption.t)).

Lemma bets_join_options_elem db id bet option :
  (id, bet, option) ∈ bets_join_options db
  ↔ bets db !! id = Some bet ∧ bettingOptions db !! Bet.optionId bet = Some option.
Proof.
  unfold bets_join_options. rewrite list_elem_of_omap. split.
  - intros ([id' bet'] & Hin & Hf). apply elem_of_map_to_list in Hin.
    destruct (bettingOptions db !! Bet.optionId bet') eqn:Ho; simplify_eq/=. done.
  - intros [Hb Ho]. exists (id, bet). split; [by apply elem_of_map_to_list|].
    by rewrite Ho.
Qed.

Lemma bets_join_options_NoDup db : NoDup (bets_join_options db).*1.*1.
Proof.
  unfold bets_join_options.
  pose proof (NoDup_fst_map_to_list (bets db)) as Hnd.
  induction (map_to_list (bets db)) as [|[id bet] l IH]; simpl; [constructor|].
  apply NoDup_cons in Hnd as [Hid Hnd].
  destruct (bettingOptions db !! Bet.optionId bet) as [o|]; simpl; [|by apply IH].
  apply NoDup_cons. split; [|by apply IH].
  intros ([id' bet'] & ? & Hin)%list_elem_of_fmap; simplify_eq/=.
  apply list_elem_of_fmap in Hin as ([[id2 bet2] o2] & ? & Hin); simplify_eq/=.
  apply list_elem_of_omap in Hin as ([id3 bet3] & Hin & Hf).
  destruct (bettingOptions db !! Bet.optionId bet3); simplify_eq/=.
  apply Hid, list_elem_of_fmap. by exists (id2, bet2).
Qed.

Lemma select_winningBets_elem eventId winningOptionId db id bet option :
  (id, bet, option) ∈ select_winningBets eventId winningOptionId db
  ↔ bets db !! id = Some bet
    ∧ bettingOptions db !! Bet.optionId bet = Some option
    ∧ is_winning_bet eventId winningOptionId bet = true.
Proof.
  unfold select_winningBets.
  rewrite list_elem_of_In, filter_In, <- list_elem_of_In, bets_join_options_elem.
  tauto.
Qed.

Lemma select_winningBets_NoDup eventId winningOptionId db :
  NoDup (select_winningBets eventId winningOptionId db).*1.*1.
Proof.
  unfold select_winningBets.
  pose proof (bets_join_options_NoDup db) as Hnd.
  induction (bets_join_options db) as [|[[id bet] o] l IH]; simpl; [constructor|].
  simpl in Hnd. apply NoDup_cons in Hnd as [Hid Hnd].
  destruct (is_winning_bet eventId winningOptionId bet); simpl; [|by apply IH].
  apply NoDup_cons. split; [|by apply IH].
  intros Hin. apply Hid.
  apply list_elem_of_fmap in Hin as ([id1 bet1] & ? & Hin); simplify_eq/=.
  apply list_elem_of_fmap in Hin as ([[id2 bet2] o2] & ? & Hin); simplify_eq/=.
  apply list_elem_of_In, filter_In in Hin as [Hin _]. apply list_elem_of_In in Hin.
  apply list_elem_of_fmap. exists (id2, bet2). split; [done|].
  apply list_elem_of_fmap. by exists (id2, bet2, o2).
Qed.

Lemma is_winning_bet_true eventId winningOptionId bet :
  is_winning_bet eventId winningOptionId bet = true
  ↔ Bet.eventId bet = eventId ∧ Bet.optionId bet = winningOptionId
    ∧ Bet.status bet = "active".
Proof.
  unfold is_winning_bet. rewrite !andb_true_iff, !String.eqb_eq. tauto.
Qed.

Lemma is_losing_bet_true eventId winningOptionId bet :
  is_losing_bet eventId winningOptionId bet = true
  ↔ Bet.eventId bet = eventId ∧ Bet.optionId bet ≠ winningOptionId
    ∧ Bet.status bet = "active".
Proof.
  unfold is_losing_bet.
  rewrite !andb_true_iff, negb_true_iff, !String.eqb_eq, String.eqb_neq. tauto.
Qed.

(** One pass of the loop either throws, leaving the players and the
    ledger as they were, or marks the bet won and pays its player. *)
Lemma pay_winner_cases eventId now id bet option db :
  (∃ db', pay_winner eventId now (id, bet, option) db = (db', Thrown)
          ∧ users db' = users db
          ∧ creditTransactions db' = creditTransactions db)
  ∨ ∃ payout u,
      compute_payout (Bet.amount bet) (BettingOption.multiplier option) = Some payout
      ∧ users db !! Bet.userId bet = Some u
      ∧ pay_winner eventId now (id, bet, option) db =
        (add_creditTransaction (win_entry eventId bet payout (User.credits u + payout))
           (set_users
              (insert (Bet.userId bet)
                 (User.mk (User.credits u + payout) (User.lastStipendDate u) (Some now)))
              (set_bets (alter (mark_won payout) id) db)),
         Returned).
Proof.
  unfold pay_winner.
  destruct (compute_payout _ _) as [payout|]; [|left; by eexists].
  destruct (int4 payout); simpl; [|left; by eexists].
  match goal with |- context [updateUserCredits ?a ?b ?c ?d ?e ?f ?g] =>
    destruct (updateUserCredits_cases a b c d e f g) as [->|(u & Hu & _ & _ & ->)]
  end.
  - left. by eexists.
  - right. by exists payout, u.
Qed.

Lemma pay_winners_spec eventId now rows db db' out :
  NoDup rows.*1.*1 →
  for_each (pay_winner eventId now) rows db = (db', out) →
  ∃ new,
    creditTransactions db' = creditTransactions db ++ new
    ∧ Forall (is_payout_of eventId rows) new
    ∧ (out = Returned →
       same_catalog db db'
       ∧ bettingEvents db' = bettingEvents db
       ∧ (∀ id, id ∉ rows.*1.*1 → bets db' !! id = bets db !! id)
       ∧ ∀ id bet option, (id, bet, option) ∈ rows →
           ∃ payout balanceAfter,
             compute_payout (Bet.amount bet) (BettingOption.multiplier option)
               = Some payout
             ∧ bets db' !! id = mark_won payout <$> bets db !! id
             ∧ win_entry eventId bet payout balanceAfter ∈ new).
Proof.
  revert db. induction rows as [|[[id bet] option] rows IH]; intros db Hnd;
    cbn [for_each]; cbn [fmap list_fmap fst] in Hnd.
  { intros [= <- <-]. exists []. rewrite app_nil_r. split_and!; try done.
    intros _. split_and!; try done. intros ??? []%elem_of_nil. }
  apply NoDup_cons in Hnd as [Hid Hnd].
  destruct (pay_winner_cases eventId now id bet option db)
    as [(db1 & -> & Hu & Hl)|(payout & u & Hp & Hu & ->)].
  { intros [= <- <-]. exists []. rewrite app_nil_r. split_and!; try done. }
  intros Hloop. destruct (IH _ Hnd Hloop) as (new & Hnew & Hpay & Hret).
  exists (win_entry eventId bet payout (User.credits u + payout) :: new).
  split_and!.
  - rewrite Hnew. simpl. by rewrite <- app_assoc.
  - apply Forall_cons. split.
    + exists id, bet, option, payout. split_and!; [left|done..].
    + eapply Forall_impl; [exact Hpay|].
      intros e (id' & bet' & o' & p' & Hin & ? & ?).
      exists id', bet', o', p'. split_and!; [by right|done..].
  - intros ->. destruct (Hret eq_refl) as (Hcat & Hev & Hother & Hrows).
    split_and!.
    + destruct Hcat as (? & ? & ? & ?). by split_and!.
    + done.
    + intros id' Hid'. rewrite Hother; simpl.
      * apply lookup_alter_ne. intros ->. apply Hid'. left.
      * intros ?. apply Hid'. by right.
    + intros id' bet' o' [?|Hin]%elem_of_cons; simplify_eq.
      * exists payout, (User.credits u + payout). split_and!; [done| |left].
        rewrite Hother by done. simpl. apply lookup_alter_eq.
      * destruct (Hrows _ _ _ Hin) as (p' & bal' & ? & Hb & ?).
        exists p', bal'. split_and!; [done| |by right].
        rewrite Hb. simpl. rewrite lookup_alter_ne; [done|].
        intros ->. apply Hid. apply list_elem_of_fmap. exists (id', bet').
        split; [done|]. apply list_elem_of_fmap. by exists (id', bet', o').
Qed.

(** Losers are picked by event, option and status: other bets are left
    as they are. *)
Lemma mark_lost_frame eventId winningOptionId bet :
  ¬ (Bet.eventId bet = eventId ∧ Bet.status bet = "active") →
  mark_lost eventId winningOptionId bet = bet.
Proof.
  intros Hn. unfold mark_lost.
  destruct (is_losing_bet _ _ _) eqn:Hl; [|done].
  apply is_losing_bet_true in Hl. tauto.
Qed.

Lemma new_entries_app db db' new :
  creditTransactions db' = creditTransactions db ++ new → new_entries db db' = new.
Proof. unfold new_entries. intros ->. apply drop_app_length. Qed.

(** What a call of [resolveBettingEvent] leaves behind. *)
Lemma resolveBettingEvent_spec eventId winningOptionId adminId now db db' out :
  resolveBettingEvent eventId winningOptionId adminId now db = (db', out) →
  let rows := select_winningBets eventId winningOptionId db in
  ∃ new,
    creditTransactions db' = creditTransactions db ++ new
    ∧ Forall (is_payout_of eventId rows) new
    ∧ same_catalog db db'
    ∧ match out with
      | Thrown => bets db' = bets db ∧ bettingEvents db' = bettingEvents db
      | Returned =>
        bettingEvents db'
        = alter (mark_resolved winningOptionId now) eventId (bettingEvents db)
        ∧ (∀ id, id ∉ rows.*1.*1 →
             bets db' !! id = mark_lost eventId winningOptionId <$> bets db !! id)
        ∧ ∀ id bet option, (id, bet, option) ∈ rows →
            ∃ payout balanceAfter,
              compute_payout (Bet.amount bet) (BettingOption.multiplier option)
                = Some payout
              ∧ bets db' !! id = Some (mark_won payout bet)
              ∧ win_entry eventId bet payout balanceAfter ∈ new
      end.
Proof.
  unfold resolveBettingEvent.
  set (db1 := set_bettingEvents _ db).
  change (select_winningBets eventId winningOptionId db1)
    with (select_winningBets eventId winningOptionId db).
  set (rows := select_winningBets eventId winningOptionId db). intros Hres.
  destruct (for_each (pay_winner eventId now) rows db1) as [db2 out2] eqn:Hloop.
  apply pay_winners_spec in Hloop as (new & Hnew & Hpay & Hret);
    [|apply select_winningBets_NoDup].
  exists new. destruct out2; simpl in Hres; simplify_eq/=.
  - destruct (Hret eq_refl) as ((? & ? & ? & ?) & Hev & Hother & Hrows).
    split_and!; try done.
    + intros id Hid. by rewrite lookup_fmap, Hother.
    + intros id bet o Hin. destruct (Hrows _ _ _ Hin) as (p & bal & Hp & Hb & He).
      exists p, bal. split_and!; [done| |done].
      apply select_winningBets_elem in Hin as (Hbet & _).
      rewrite lookup_fmap, Hb. simpl in *. rewrite Hbet. simpl.
      f_equal. by apply mark_lost_frame; intros [_ ?].
  - by split_and!.
Qed.

Lemma row_ids_elem rows id :
  id ∈ rows.*1.*1 ↔ ∃ bet option, (id, bet, option) ∈ rows.
Proof.
  split.
  - intros ([id1 bet] & ? & Hin)%list_elem_of_fmap; simplify_eq/=.
    apply list_elem_of_fmap in Hin as ([[id2 bet2] o] & ? & Hin); simplify_eq/=. eauto.
  - intros (bet & o & Hin). apply list_elem_of_fmap. exists (id, bet).
    split; [done|]. apply list_elem_of_fmap. by exists (id, bet, o).
Qed.

(** A call that returns leaves no bet on the event active: winners are
    won, the others lost. *)
Lemma resolveBettingEvent_settles_all eventId winningOptionId adminId now db db' :
  bets_have_options db →
  resolveBettingEvent eventId winningOptionId adminId now db = (db', Returned) →
  no_active_bet eventId db'.
Proof.
  intros Hfk Hres.
  apply resolveBettingEvent_spec in Hres as (new & _ & _ & _ & _ & Hother & Hrows).
  intros id bet' Hbet' Hevent Hactive.
  destruct (decide (id ∈ (select_winningBets eventId winningOptionId db).*1.*1))
    as [Hin|Hnin].
  - apply row_ids_elem in Hin as (bet & o & Hrow).
    destruct (Hrows _ _ _ Hrow) as (p & bal & _ & Hb & _).
    rewrite Hb in Hbet'. injection Hbet' as <-. discriminate Hactive.
  - rewrite (Hother _ Hnin) in Hbet'.
    destruct (bets db !! id) as [bet|] eqn:Hbet; [|done].
    injection Hbet' as <-. unfold mark_lost in Hevent, Hactive.
    destruct (is_losing_bet eventId winningOptionId bet) eqn:Hl; [discriminate Hactive|].
    destruct (Hfk _ _ Hbet) as [o Ho]. apply Hnin, row_ids_elem. exists bet, o.
    apply select_winningBets_elem. split_and!; [done..|].
    apply is_winning_bet_true. split_and!; [done| |done].
    destruct (decide (Bet.optionId bet = winningOptionId)) as [|Hne]; [done|].
    assert (is_losing_bet eventId winningOptionId bet = true) as Hl'
      by by apply is_losing_bet_true.
    congruence.
Qed.

(** A loop that returns has appended one entry for every row, in the
    order of the rows. *)
Lemma pay_winners_entries eventId now rows db db' :
  for_each (pay_winner eventId now) rows db = (db', Returned) →
  ∃ new, creditTransactions db' = creditTransactions db ++ new
         ∧ Forall2 (pays eventId) rows new.
Proof.
  revert db. induction rows as [|[[id bet] option] rows IH]; intros db; cbn [for_each].
  { intros [= <-]. exists []. by rewrite app_nil_r. }
  destruct (pay_winner_cases eventId now id bet option db)
    as [(db1 & -> & _)|(payout & u & Hp & Hu & ->)]; [done|].
  intros Hloop. destruct (IH _ Hloop) as (new & Hnew & Hpays).
  exists (win_entry eventId bet payout (User.credits u + payout) :: new). split.
  - rewrite Hnew. simpl. by rewrite <- app_assoc.
  - constructor; [by exists payout|done].
Qed.

Lemma resolveBettingEvent_entries eventId winningOptionId adminId now db db' :
  resolveBettingEvent eventId winningOptionId adminId now db = (db', Returned) →
  Forall2 (pays eventId) (select_winningBets eventId winningOptionId db)
    (new_entries db db').
Proof.
  unfold resolveBettingEvent.
  set (db1 := set_bettingEvents _ db).
  change (select_winningBets eventId winningOptionId db1)
    with (select_winningBets eventId winningOptionId db).
  destruct (for_each _ _ db1) as [db2 out] eqn:Hloop.
  destruct out; simpl; [|done]. intros [= <-].
  apply pay_winners_entries in Hloop as (new & Hnew & Hpays).
  by rewrite (new_entries_app db _ new).
Qed.

(** The entries that pay [rows] add up, for each player, to what the
    player's bets among them pay. *)
Lemma pays_sum eventId rows new userId :
  Forall2 (pays eventId) rows new → sum_for userId new = total_payout userId rows.
Proof.
  induction 1 as [|[[id bet] option] e rows new (payout & Hp & He) _ IH]; [done|].
  simpl in *. rewrite IH, Hp, He. simpl. done.
Qed.

End Resolution.

(** * The claims *)

Lemma sample_db_balanced userId : balanced userId sample_db.
Proof.
  intros u Hu. simpl in Hu.
  apply lookup_insert_Some in Hu as [[<- <-]|[_ Hu]]; [reflexivity|].
  apply lookup_singleton_Some in Hu as [<- <-]. reflexivity.
Defined.

Lemma sample_db_newest : newest_snapshot_current sample_db.
Proof.
  intros older e newer Heq Hne. simpl in Heq.
  destruct older as [|e1 [|e2 [|e3 [|e4 older]]]]; simplify_eq/=; try done.
  - exfalso.
    apply (Hne (CreditTransaction.mk "alice" (-300) "bet_placed" (Some "ev") "Bet placed" 700));
      [right; left|reflexivity].
Defined.

(** C1. Balance = sum of the ledger: for every player, from any state in
    which the player's [credits] is the sum of the amounts of the player's
    [creditTransactions], each core operation (updateUserCredits,
    processWeeklyStipends, reviewSubmission, placeBet, cancelBet,
    resolveBettingEvent, fundLoan, repayLoan) leaves a state in which this
    holds again, whether the call returned or threw. *)
Theorem balance_is_ledger_sum (now : Z) (op : Op) (db : Db) (userId : string) :
  balanced userId db → balanced userId (run now op db).1.
Proof.
  intros Hbal u' Hu'.
  destruct (run_applied now op db) as (new & Hnew & Hmove).
  specialize (Hmove userId). unfold balances in Hmove.
  rewrite !lookup_fmap, Hu' in Hmove.
  destruct (users db !! userId) as [u|] eqn:Hu; simplify_eq/=.
  rewrite Hnew, sum_for_app, <- (Hbal _ Hu). done.
Qed.

Lemma balance_is_ledger_sum_witness :
  balanced "bob" sample_db
  ∧ balanced "bob" (run 1000 (FundLoan "l1" "alice") sample_db).1.
Proof.
  split; [exact (sample_db_balanced "bob")|].
  apply (balance_is_ledger_sum 1000 (FundLoan "l1" "alice") sample_db "bob").
  exact (sample_db_balanced "bob").
Defined.

(** Snapshots are right where the rows are fresh.  For an operation that
    works on rows as they are in the database it runs on, which is every
    operation but a stipend loop that other requests have overtaken, the
    entries it creates replay from the balances before it: each carries
    in [balanceAfter] the balance of its player right after its amount was
    added, and the newest entry of every player keeps carrying that
    player's balance. *)
Lemma fresh_snapshots now op db :
  reads_fresh op db →
  newest_snapshot_current db →
  ∃ new,
    creditTransactions (run now op db).1 = creditTransactions db ++ new
    ∧ replay (balances db) new = Some (balances (run now op db).1)
    ∧ newest_snapshot_current (run now op db).1.
Proof.
  intros Hfresh Hold.
  destruct (run_extends now op db Hfresh) as (new & Hnew & Hreplay).
  exists new. split_and!; [done..|].
  intros older e newer Heq Hne. rewrite Hnew in Heq.
  apply app_eq_inv in Heq as [(k & Hdb & Hk)|(k & -> & Hk)].
  - destruct k as [|e0 k]; simpl in Hk.
    + subst new. by apply (replay_newest _ [] _ _ _ Hreplay).
    + injection Hk as -> ->.
      rewrite (replay_untouched _ _ _ _ Hreplay).
      * apply (Hold older e0 k Hdb). intros e' He'. apply Hne, elem_of_app. by left.
      * intros e' He'. apply Hne, elem_of_app. by right.
  - subst new. by apply (replay_newest _ _ _ _ _ Hreplay).
Qed.

(** C2 fails on the stipend loop.  [processWeeklyStipends] selects its
    rows outside any transaction and writes [user.credits + 200] of the
    row it selected into [balanceAfter], where [updateUserCredits] writes
    the credits that its update returned.  Alice (700 credits) and Bob are
    selected; before the loop reaches Alice her bet of 100 is placed; her
    stipend entry then carries 900 while her balance is 800, and it is her
    newest entry. *)
Theorem stipend_snapshot_is_stale :
  let eligibleUsers := select_eligibleUsers 0 1000 sample_db in
  let db := (run 1000 (PlaceBet "b2" (InsertBet.mk "ev" "no" "alice" 100)) sample_db).1 in
  let r := run 1000 (ProcessWeeklyStipends eligibleUsers) db in
  eligibleUsers = [("alice", User.mk 700 None None); ("bob", User.mk 500 None None)]
  ∧ newest_snapshot_current db
  ∧ balances db !! "alice" = Some 600
  ∧ r.2 = Returned
  ∧ new_entries db r.1
    = [ CreditTransaction.mk "alice" 200 "weekly_stipend" None "Weekly credit stipend" 900;
        CreditTransaction.mk "bob" 200 "weekly_stipend" None "Weekly credit stipend" 700 ]
  ∧ balances r.1 !! "alice" = Some 800
  ∧ replay (balances db) (new_entries db r.1) = None
  ∧ ¬ newest_snapshot_current r.1.
Proof.
  split_and!; try (vm_compute; reflexivity).
  - destruct (fresh_snapshots 1000 (PlaceBet "b2" (InsertBet.mk "ev" "no" "alice" 100))
                sample_db I sample_db_newest) as (_ & _ & _ & Hnewest).
    exact Hnewest.
  - intros Hnewest.
    set (r := run 1000 _ _) in Hnewest.
    assert (creditTransactions r.1
            = (creditTransactions sample_db
               ++ [CreditTransaction.mk "alice" (-100) "bet_placed" (Some "ev")
                     "Bet placed" 600])
              ++ CreditTransaction.mk "alice" 200 "weekly_stipend" None
                   "Weekly credit stipend" 900
                 :: [CreditTransaction.mk "bob" 200 "weekly_stipend" None
                       "Weekly credit stipend" 700]) as Hledger
      by (vm_compute; reflexivity).
    assert (balances r.1 !! "alice" = Some 800) as Halice by (vm_compute; reflexivity).
    specialize (Hnewest _ _ _ Hledger). simpl in Hnewest.
    rewrite Halice in Hnewest.
    assert (Some 800 = Some 900) as [=]. apply Hnewest.
    intros e' ->%list_elem_of_singleton. discriminate.
Qed.


(** C9 does not hold as stated: the payout is computed on binary64
    Numbers.  Bob's bet of 100 on an option at 1.15 wins 114, where the
    floor of the decimal product 100 × 1.15 is 115. *)
Lemma payout_100_at_1_15_is_114 :
  let db := (placeBet "b2" (InsertBet.mk "ev" "no" "bob" 100) 1000 sample_db).1 in
  let r := resolveBettingEvent "ev" "no" "admin" 2000 db in
  bets db !! "b2" = Some (Bet.mk "ev" "no" "bob" 100 "active" None)
  ∧ BettingOption.multiplier <$> bettingOptions db !! "no" = Some 115
  ∧ r.2 = Returned
  ∧ bets r.1 !! "b2" = Some (Bet.mk "ev" "no" "bob" 100 "won" (Some 114))
  ∧ new_entries db r.1 = [win_entry "ev" (Bet.mk "ev" "no" "bob" 100 "active" None) 114 514]
  ∧ exact_payout 100 115 = 115.
Proof. vm_compute. by split_and!. Qed.

(** C9, amended. When [resolveBettingEvent] returns, every bet that was
    active on the winning option of the event is marked won with the
    floor of the binary64 product of the amount and the parsed
    multiplier; the entries appended are one [bet_win] entry of that
    payout for each of these bets, in the order in which they were
    selected, and nothing else; and every player has exactly the payouts
    of the player's winning bets more than before. *)
Theorem resolveBettingEvent_payout (eventId winningOptionId adminId : string)
    (now : Z) (db db' : Db) :
  resolveBettingEvent eventId winningOptionId adminId now db = (db', Returned) →
  let winningBets := select_winningBets eventId winningOptionId db in
  (∀ id bet option,
     (id, bet, option) ∈ winningBets
     ↔ bets db !! id = Some bet
       ∧ Bet.eventId bet = eventId
       ∧ Bet.optionId bet = winningOptionId
       ∧ Bet.status bet = "active"
       ∧ bettingOptions db !! winningOptionId = Some option)
  ∧ NoDup winningBets.*1.*1
  ∧ (∀ id bet option, (id, bet, option) ∈ winningBets →
       ∃ payout,
         Math_floor (Number_mul (Number_of_int (Bet.amount bet))
                       (parseFloat (BettingOption.multiplier option))) = Some payout
         ∧ bets db' !! id = Some (mark_won payout bet))
  ∧ Forall2 (pays eventId) winningBets (new_entries db db')
  ∧ ∀ userId u, users db !! userId = Some u →
      ∃ u', users db' !! userId = Some u'
            ∧ User.credits u' = User.credits u + total_payout userId winningBets.
Proof.
  intros Hres winningBets.
  pose proof (resolveBettingEvent_entries _ _ _ _ _ _ Hres) as Hpays.
  pose proof (resolveBettingEvent_extends eventId winningOptionId adminId now db) as Hext.
  rewrite Hres in Hext. destruct Hext as (new' & Hnew' & Hreplay). simpl in Hnew', Hreplay.
  apply resolveBettingEvent_spec in Hres as (new & Hnew & _ & _ & _ & _ & Hrows).
  assert (new' = new) as -> by (apply (app_inv_head (creditTransactions db)); congruence).
  rewrite (new_entries_app _ _ _ Hnew) in *.
  split_and!.
  - intros id bet option. unfold winningBets.
    rewrite select_winningBets_elem, is_winning_bet_true. split.
    + intros (Hbet & Hoption & Hev & Hopt & Hst). by rewrite <- Hopt.
    + intros (Hbet & Hev & Hopt & Hst & Hoption). by rewrite Hopt.
  - apply select_winningBets_NoDup.
  - intros id bet option Hin.
    destruct (Hrows id bet option Hin) as (payout & _ & Hp & Hb & _). by exists payout.
  - done.
  - intros userId u Hu.
    apply (replay_sum _ _ _ userId) in Hreplay. unfold balances in Hreplay.
    rewrite !lookup_fmap, Hu in Hreplay. simpl in Hreplay.
    destruct (users db' !! userId) as [u'|]; [|done].
    exists u'. split; [done|]. simpl in Hreplay. injection Hreplay as Hcredits.
    by rewrite Hcredits, (pays_sum eventId winningBets new).
Qed.

Lemma resolveBettingEvent_payout_witness :
  let db' := (resolveBettingEvent "ev" "yes" "admin" 2000 sample_db).1 in
  let bet := Bet.mk "ev" "yes" "alice" 300 "active" None in
  select_winningBets "ev" "yes" sample_db = [("b1", bet, BettingOption.mk "ev" 200)]
  ∧ bets db' !! "b1" = Some (mark_won 600 bet)
  ∧ Forall2 (pays "ev") [("b1", bet, BettingOption.mk "ev" 200)] (new_entries sample_db db')
  ∧ User.credits <$> users sample_db !! "alice" = Some 700
  ∧ User.credits <$> users db' !! "alice" = Some (700 + 600).
Proof.
  intros db' bet.
  assert (select_winningBets "ev" "yes" sample_db
          = [("b1", bet, BettingOption.mk "ev" 200)]) as Hsel by (vm_compute; reflexivity).
  destruct (resolveBettingEvent_payout "ev" "yes" "admin" 2000 sample_db db')
    as (_ & _ & Hbets & Hentries & Husers); [vm_compute; reflexivity|].
  rewrite Hsel in Hbets, Hentries, Husers.
  destruct (Hbets "b1" bet (BettingOption.mk "ev" 200)) as (payout & Hp & Hb); [left|].
  injection Hp as <-.
  destruct (Husers "alice" (User.mk 700 None None)) as (u' & Hu' & Hc);
    [vm_compute; reflexivity|].
  split_and!; [done|exact Hb|exact Hentries|vm_compute; reflexivity|].
  rewrite Hu'. cbn [fmap option_fmap option_map]. rewrite Hc. vm_compute; reflexivity.
Defined.

(** The payout of the specification's example: 300 at 2.00 pays 600. *)
Example payout_300_at_2_00 : compute_payout 300 200 = Some 600.
Proof. reflexivity. Qed.

(** C3 does not hold as stated: the event's status is not looked at.  After
    the event was resolved a bet was placed on it; resolving the event
    again returns, pays that bet and marks it won. *)
Lemma resolved_event_is_resolved_again :
  let db :=
    run_all 1000
      [ ResolveBettingEvent "ev" "yes" "admin";
        PlaceBet "b2" (InsertBet.mk "ev" "no" "bob" 100) ] sample_db in
  let r := resolveBettingEvent "ev" "no" "admin" 2000 db in
  BettingEvent.status <$> bettingEvents db !! "ev" = Some "resolved"
  ∧ r.2 = Returned
  ∧ new_entries db r.1 = [win_entry "ev" (Bet.mk "ev" "no" "bob" 100 "active" None) 114 514]
  ∧ balances db !! "bob" = Some 400
  ∧ balances r.1 !! "bob" = Some 514
  ∧ bets db !! "b2" = Some (Bet.mk "ev" "no" "bob" 100 "active" None)
  ∧ bets r.1 !! "b2" = Some (Bet.mk "ev" "no" "bob" 100 "won" (Some 114)).
Proof. vm_compute. by split_and!. Qed.

(** C3, amended. [resolveBettingEvent] does not reject an event that is
    already resolved.  Whatever the status of the event, when none of the
    bets on it is active the call returns, appends no ledger entry, leaves
    every player and every bet as it was, and only records the winning
    option and the time on the event; no bet on the event is active
    afterwards either. *)
Theorem resolveBettingEvent_without_active_bets (eventId winningOptionId adminId : string)
    (now : Z) (db : Db) :
  no_active_bet eventId db →
  let r := resolveBettingEvent eventId winningOptionId adminId now db in
  r.2 = Returned
  ∧ creditTransactions r.1 = creditTransactions db
  ∧ users r.1 = users db
  ∧ bets r.1 = bets db
  ∧ bettingEvents r.1
    = alter (mark_resolved winningOptionId now) eventId (bettingEvents db)
  ∧ no_active_bet eventId r.1.
Proof.
  intros Hna.
  assert (select_winningBets eventId winningOptionId db = []) as Hrows.
  { apply elem_of_nil_inv. intros [[id bet] o] Hin.
    apply select_winningBets_elem in Hin as (Hbet & _ & Hw).
    apply is_winning_bet_true in Hw as (? & _ & ?). by eapply Hna. }
  assert (mark_lost eventId winningOptionId <$> bets db = bets db) as Hlost.
  { apply map_eq. intros id. rewrite lookup_fmap.
    destruct (bets db !! id) as [bet|] eqn:Hbet; simpl; [|done].
    f_equal. apply mark_lost_frame. intros [? ?]. by eapply Hna. }
  unfold resolveBettingEvent.
  change (select_winningBets eventId winningOptionId (set_bettingEvents _ db))
    with (select_winningBets eventId winningOptionId db).
  rewrite Hrows. simpl. rewrite Hlost. split_and!; try done.
  intros id bet Hbet. simpl in Hbet. rewrite Hlost in Hbet. exact (Hna id bet Hbet).
Qed.

Lemma resolveBettingEvent_without_active_bets_witness :
  let db := (resolveBettingEvent "ev" "yes" "admin" 1000 sample_db).1 in
  let r := resolveBettingEvent "ev" "no" "admin" 2000 db in
  no_active_bet "ev" db
  ∧ r.2 = Returned
  ∧ creditTransactions r.1 = creditTransactions db
  ∧ users r.1 = users db
  ∧ bets r.1 = bets db
  ∧ bettingEvents r.1 = alter (mark_resolved "no" 2000) "ev" (bettingEvents db)
  ∧ no_active_bet "ev" r.1.
Proof.
  assert (no_active_bet "ev" (resolveBettingEvent "ev" "yes" "admin" 1000 sample_db).1)
    as Hna.
  { assert (bets (resolveBettingEvent "ev" "yes" "admin" 1000 sample_db).1
            = {[ "b1" := Bet.mk "ev" "yes" "alice" 300 "won" (Some 600) ]}) as Hbets
      by (vm_compute; reflexivity).
    intros id bet Hbet _. rewrite Hbets in Hbet.
    apply lookup_singleton_Some in Hbet as [_ <-]. done. }
  split; [exact Hna|].
  exact (resolveBettingEvent_without_active_bets "ev" "no" "admin" 2000 _ Hna).
Defined.

(** C4 does not hold as stated: the loan's status is not looked at.  A loan
    that is already funded is funded again: the lender is debited and the
    borrower credited a second time. *)
Lemma funded_loan_is_funded_again :
  let db := (fundLoan "l1" "alice" 1000 sample_db).1 in
  let r := fundLoan "l1" "alice" 2000 db in
  loans db !! "l1"
  = Some (Loan.mk "bob" (Some "alice") 500 550 "funded" (Some 1000) None)
  ∧ r.2 = Returned
  ∧ loans r.1 !! "l1"
    = Some (Loan.mk "bob" (Some "alice") 500 550 "funded" (Some 2000) None)
  ∧ new_entries db r.1
    = [ CreditTransaction.mk "alice" (-500) "loan_funded" (Some "l1")
          "Loan funded to another user" (-300);
        CreditTransaction.mk "bob" 500 "loan_received" (Some "l1")
          "Loan received from another user" 1500 ]
  ∧ balances db !! "alice" = Some 200 ∧ balances r.1 !! "alice" = Some (-300)
  ∧ balances db !! "bob" = Some 1000 ∧ balances r.1 !! "bob" = Some 1500.
Proof. vm_compute. by split_and!. Qed.

(** C4, amended. [fundLoan] goes ahead whenever the loan exists, whatever
    its status: with the lender and the borrower two players whose new
    balances fit the column, it returns, sets the status to funded,
    records the lender and the time, and moves [amount] from the lender
    to the borrower as exactly two entries, a [loan_funded] debit on the
    lender followed by a [loan_received] credit on the borrower.  When no
    loan has the id, it returns and nothing changes. *)
Theorem fundLoan_effect (loanId lenderId : string) (now : Z) (db : Db) :
  (∀ loan lender borrower,
     loans db !! loanId = Some loan →
     users db !! lenderId = Some lender →
     users db !! Loan.borrowerId loan = Some borrower →
     lenderId ≠ Loan.borrowerId loan →
     int4 (- Loan.amount loan) = true →
     int4 (Loan.amount loan) = true →
     int4 (User.credits lender - Loan.amount loan) = true →
     int4 (User.credits borrower + Loan.amount loan) = true →
     ∃ db',
       fundLoan loanId lenderId now db = (db', Returned)
       ∧ loans db'
         = <[loanId :=
               Loan.mk (Loan.borrowerId loan) (Some lenderId) (Loan.amount loan)
                 (Loan.totalRepayment loan) "funded" (Some now) (Loan.repaidAt loan)]>
             (loans db)
       ∧ creditTransactions db'
         = creditTransactions db ++
           [ CreditTransaction.mk lenderId (- Loan.amount loan) "loan_funded"
               (Some loanId) "Loan funded to another user"
               (User.credits lender - Loan.amount loan);
             CreditTransaction.mk (Loan.borrowerId loan) (Loan.amount loan)
               "loan_received" (Some loanId) "Loan received from another user"
               (User.credits borrower + Loan.amount loan) ]
       ∧ users db'
         = <[Loan.borrowerId loan :=
               User.mk (User.credits borrower + Loan.amount loan)
                 (User.lastStipendDate borrower) (Some now)]>
             (<[lenderId :=
                  User.mk (User.credits lender - Loan.amount loan)
                    (User.lastStipendDate lender) (Some now)]>
                (users db)))
  ∧ (loans db !! loanId = None → fundLoan loanId lenderId now db = (db, Returned)).
Proof.
  split.
  - intros loan lender borrower Hloan Hlender Hborrower Hne Ha1 Ha2 Hl Hb.
    unfold fundLoan. rewrite Hloan, Hlender. cbn [Loan.amount Loan.borrowerId].
    rewrite (updateUserCredits_returns lenderId _ _ _ _ _ _ lender) by done.
    cbn [andThen].
    rewrite (updateUserCredits_returns (Loan.borrowerId loan) _ _ _ _ _ _ borrower);
      [|by simpl; rewrite lookup_insert_ne|done..].
    cbn [andThen]. eexists. split; [reflexivity|].
    simpl. by rewrite <- app_assoc.
  - intros Hloan. unfold fundLoan. by rewrite Hloan.
Qed.

Lemma fundLoan_effect_witness :
  let db := (fundLoan "l1" "alice" 1000 sample_db).1 in
  (∃ db',
     fundLoan "l1" "alice" 2000 db = (db', Returned)
     ∧ loans db'
       = <[ "l1" := Loan.mk "bob" (Some "alice") 500 550 "funded" (Some 2000) None ]>
           (loans db)
     ∧ creditTransactions db'
       = creditTransactions db ++
         [ CreditTransaction.mk "alice" (-500) "loan_funded" (Some "l1")
             "Loan funded to another user" (200 - 500);
           CreditTransaction.mk "bob" 500 "loan_received" (Some "l1")
             "Loan received from another user" (1000 + 500) ]
     ∧ users db'
       = <[ "bob" := User.mk (1000 + 500) None (Some 2000) ]>
           (<[ "alice" := User.mk (200 - 500) None (Some 2000) ]> (users db)))
  ∧ fundLoan "l2" "alice" 2000 db = (db, Returned).
Proof.
  intros db. split.
  - apply (proj1 (fundLoan_effect "l1" "alice" 2000 db)
             (Loan.mk "bob" (Some "alice") 500 550 "funded" (Some 1000) None)
             (User.mk 200 None (Some 1000)) (User.mk 1000 None (Some 1000)));
      first [discriminate | vm_compute; reflexivity].
  - apply (proj2 (fundLoan_effect "l2" "alice" 2000 db)). vm_compute; reflexivity.
Defined.

(** C5 does not hold as stated: the loan's status is not looked at, only
    whether the loan has a lender.  A loan that is already repaid is
    repaid again, and a loan that is still pending is marked repaid. *)
Lemma repaid_loan_is_repaid_again :
  let db := run_all 1000 [FundLoan "l1" "alice"; RepayLoan "l1"] sample_db in
  let r := repayLoan "l1" 2000 db in
  let r0 := repayLoan "l1" 2000 sample_db in
  loans db !! "l1"
  = Some (Loan.mk "bob" (Some "alice") 500 550 "repaid" (Some 1000) (Some 1000))
  ∧ r.2 = Returned
  ∧ loans r.1 !! "l1"
    = Some (Loan.mk "bob" (Some "alice") 500 550 "repaid" (Some 1000) (Some 2000))
  ∧ new_entries db r.1
    = [ CreditTransaction.mk "bob" (-550) "loan_repaid" (Some "l1") "Loan repayment" (-100);
        CreditTransaction.mk "alice" 550 "loan_repaid_received" (Some "l1")
          "Loan repayment received" 1300 ]
  ∧ balances db !! "bob" = Some 450 ∧ balances r.1 !! "bob" = Some (-100)
  ∧ balances db !! "alice" = Some 750 ∧ balances r.1 !! "alice" = Some 1300
  ∧ loans sample_db !! "l1" = Some (Loan.mk "bob" None 500 550 "pending" None None)
  ∧ r0.2 = Returned
  ∧ loans r0.1 !! "l1" = Some (Loan.mk "bob" None 500 550 "repaid" None (Some 2000)).
Proof. vm_compute. by split_and!. Qed.

(** C5, amended. [repayLoan] goes ahead whenever the loan exists, whatever
    its status: it sets the status to repaid and records the time; if the
    loan has a lender, and borrower and lender are two players whose new
    balances fit the column, it returns having moved [totalRepayment] from
    the borrower to the lender as exactly two entries, a [loan_repaid]
    debit on the borrower followed by a [loan_repaid_received] credit on
    the lender; if the loan has no lender it returns with no credit moved.
    When no loan has the id, it returns and nothing changes. *)
Theorem repayLoan_effect (loanId : string) (now : Z) (db : Db) :
  (∀ loan lenderId borrower lender,
     loans db !! loanId = Some loan →
     Loan.lenderId loan = Some lenderId →
     lenderId ≠ "" →
     users db !! Loan.borrowerId loan = Some borrower →
     users db !! lenderId = Some lender →
     lenderId ≠ Loan.borrowerId loan →
     int4 (- Loan.totalRepayment loan) = true →
     int4 (Loan.totalRepayment loan) = true →
     int4 (User.credits borrower - Loan.totalRepayment loan) = true →
     int4 (User.credits lender + Loan.totalRepayment loan) = true →
     ∃ db',
       repayLoan loanId now db = (db', Returned)
       ∧ loans db'
         = <[loanId :=
               Loan.mk (Loan.borrowerId loan) (Some lenderId) (Loan.amount loan)
                 (Loan.totalRepayment loan) "repaid" (Loan.fundedAt loan) (Some now)]>
             (loans db)
       ∧ creditTransactions db'
         = creditTransactions db ++
           [ CreditTransaction.mk (Loan.borrowerId loan) (- Loan.totalRepayment loan)
               "loan_repaid" (Some loanId) "Loan repayment"
               (User.credits borrower - Loan.totalRepayment loan);
             CreditTransaction.mk lenderId (Loan.totalRepayment loan)
               "loan_repaid_received" (Some loanId) "Loan repayment received"
               (User.credits lender + Loan.totalRepayment loan) ]
       ∧ users db'
         = <[lenderId :=
               User.mk (User.credits lender + Loan.totalRepayment loan)
                 (User.lastStipendDate lender) (Some now)]>
             (<[Loan.borrowerId loan :=
                  User.mk (User.credits borrower - Loan.totalRepayment loan)
                    (User.lastStipendDate borrower) (Some now)]>
                (users db)))
  ∧ (∀ loan,
       loans db !! loanId = Some loan →
       truthy (Loan.lenderId loan) = None →
       repayLoan loanId now db =
       (set_loans
          (insert loanId
             (Loan.mk (Loan.borrowerId loan) (Loan.lenderId loan) (Loan.amount loan)
                (Loan.totalRepayment loan) "repaid" (Loan.fundedAt loan) (Some now)))
          db,
        Returned))
  ∧ (loans db !! loanId = None → repayLoan loanId now db = (db, Returned)).
Proof.
  split_and!.
  - intros loan lenderId borrower lender Hloan Hl Hne0 Hb Hlender Hne Ha1 Ha2 Hcb Hcl.
    unfold repayLoan. rewrite Hloan. cbn [Loan.lenderId Loan.totalRepayment Loan.borrowerId].
    rewrite Hl.
    assert (truthy (Some lenderId) = Some lenderId) as -> by by destruct lenderId.
    rewrite (updateUserCredits_returns (Loan.borrowerId loan) _ _ _ _ _ _ borrower) by done.
    cbn [andThen].
    rewrite (updateUserCredits_returns lenderId _ _ _ _ _ _ lender);
      [|by simpl; rewrite lookup_insert_ne|done..].
    cbn [andThen]. eexists. split; [reflexivity|].
    simpl. by rewrite <- app_assoc.
  - intros loan Hloan Hl. unfold repayLoan. rewrite Hloan.
    cbn [Loan.lenderId]. by rewrite Hl.
  - intros Hloan. unfold repayLoan. by rewrite Hloan.
Qed.

Lemma repayLoan_effect_witness :
  let db := run_all 1000 [FundLoan "l1" "alice"; RepayLoan "l1"] sample_db in
  (∃ db',
     repayLoan "l1" 2000 db = (db', Returned)
     ∧ loans db'
       = <[ "l1" := Loan.mk "bob" (Some "alice") 500 550 "repaid" (Some 1000) (Some 2000) ]>
           (loans db)
     ∧ creditTransactions db'
       = creditTransactions db ++
         [ CreditTransaction.mk "bob" (-550) "loan_repaid" (Some "l1") "Loan repayment"
             (450 - 550);
           CreditTransaction.mk "alice" 550 "loan_repaid_received" (Some "l1")
             "Loan repayment received" (750 + 550) ]
     ∧ users db'
       = <[ "alice" := User.mk (750 + 550) None (Some 2000) ]>
           (<[ "bob" := User.mk (450 - 550) None (Some 2000) ]> (users db)))
  ∧ repayLoan "l1" 2000 sample_db
    = (set_loans (insert "l1" (Loan.mk "bob" None 500 550 "repaid" None (Some 2000)))
         sample_db,
       Returned)
  ∧ repayLoan "l2" 2000 db = (db, Returned).
Proof.
  intros db. split_and!.
  - apply (proj1 (repayLoan_effect "l1" 2000 db)
             (Loan.mk "bob" (Some "alice") 500 550 "repaid" (Some 1000) (Some 1000))
             "alice" (User.mk 450 None (Some 1000)) (User.mk 750 None (Some 1000)));
      first [discriminate | vm_compute; reflexivity].
  - apply (proj1 (proj2 (repayLoan_effect "l1" 2000 sample_db))
             (Loan.mk "bob" None 500 550 "pending" None None));
      vm_compute; reflexivity.
  - apply (proj2 (proj2 (repayLoan_effect "l2" 2000 db))). vm_compute; reflexivity.
Defined.

(** C6 does not hold as stated: the submission's status is not looked at.
    A submission that is already approved is approved again and its
    player is credited the reward a second time; and rejecting a
    submission that does not exist returns normally. *)
Lemma approved_submission_is_rewarded_again :
  let db := (reviewSubmission "s1" approved "bob" 1000 sample_db).1 in
  let r := reviewSubmission "s1" approved "bob" 2000 db in
  challengeSubmissions db !! "s1"
  = Some (Submission.mk "c1" "alice" "approved" (Some "bob") (Some 1000))
  ∧ r.2 = Returned
  ∧ challengeSubmissions r.1 !! "s1"
    = Some (Submission.mk "c1" "alice" "approved" (Some "bob") (Some 2000))
  ∧ creditTransactions r.1
    = creditTransactions sample_db ++
      [ CreditTransaction.mk "alice" 50 "challenge_reward" (Some "c1")
          "Challenge completed: Run a mile" 750;
        CreditTransaction.mk "alice" 50 "challenge_reward" (Some "c1")
          "Challenge completed: Run a mile" 800 ]
  ∧ balances db !! "alice" = Some 750
  ∧ balances r.1 !! "alice" = Some 800
  ∧ challengeSubmissions sample_db !! "s9" = None
  ∧ reviewSubmission "s9" rejected "bob" 2000 sample_db = (sample_db, Returned).
Proof. vm_compute. by split_and!. Qed.

(** C6, amended. [reviewSubmission] goes ahead whenever the submission
    exists, whatever its status: with an existing reviewer it sets the
    status, the reviewer and the time; on a rejection it returns with no
    credit moved; on an approval, with the challenge and the submitting
    player in place and the new balance fitting the column, it returns
    having credited the player the challenge's reward by exactly one
    [challenge_reward] entry.  When no submission has the id nothing
    changes: an approval throws and a rejection returns. *)
Theorem reviewSubmission_effect (submissionId : string) (reviewerId : string)
    (now : Z) (db : Db) :
  (∀ submission reviewer challenge player,
     challengeSubmissions db !! submissionId = Some submission →
     users db !! reviewerId = Some reviewer →
     challenges db !! Submission.challengeId submission = Some challenge →
     users db !! Submission.userId submission = Some player →
     int4 (Challenge.reward challenge) = true →
     int4 (User.credits player + Challenge.reward challenge) = true →
     ∃ db',
       reviewSubmission submissionId approved reviewerId now db = (db', Returned)
       ∧ challengeSubmissions db'
         = <[submissionId :=
               Submission.mk (Submission.challengeId submission)
                 (Submission.userId submission) "approved" (Some reviewerId) (Some now)]>
             (challengeSubmissions db)
       ∧ creditTransactions db'
         = creditTransactions db ++
           [ CreditTransaction.mk (Submission.userId submission)
               (Challenge.reward challenge) "challenge_reward"
               (Some (Submission.challengeId submission))
               ("Challenge completed: " +:+ Challenge.title challenge)
               (User.credits player + Challenge.reward challenge) ]
       ∧ users db'
         = <[Submission.userId submission :=
               User.mk (User.credits player + Challenge.reward challenge)
                 (User.lastStipendDate player) (Some now)]>
             (users db))
  ∧ (∀ submission reviewer,
       challengeSubmissions db !! submissionId = Some submission →
       users db !! reviewerId = Some reviewer →
       reviewSubmission submissionId rejected reviewerId now db =
       (set_challengeSubmissions
          (insert submissionId
             (Submission.mk (Submission.challengeId submission)
                (Submission.userId submission) "rejected" (Some reviewerId) (Some now)))
          db,
        Returned))
  ∧ (challengeSubmissions db !! submissionId = None →
     reviewSubmission submissionId approved reviewerId now db = (db, Thrown)
     ∧ reviewSubmission submissionId rejected reviewerId now db = (db, Returned)).
Proof.
  split_and!.
  - intros submission reviewer challenge player Hs Hr Hc Hp Ha Hb.
    unfold reviewSubmission. rewrite Hs, Hr.
    cbn [Submission.challengeId Submission.userId challenges set_challengeSubmissions].
    rewrite Hc.
    rewrite (updateUserCredits_returns (Submission.userId submission) _ _ _ _ _ _ player)
      by done.
    cbn [andThen]. eexists. split; [reflexivity|]. by simpl.
  - intros submission reviewer Hs Hr. unfold reviewSubmission. by rewrite Hs, Hr.
  - intros Hs. unfold reviewSubmission. by rewrite Hs.
Qed.

Lemma reviewSubmission_effect_witness :
  let db := (reviewSubmission "s1" approved "bob" 1000 sample_db).1 in
  (∃ db',
     reviewSubmission "s1" approved "bob" 2000 db = (db', Returned)
     ∧ challengeSubmissions db'
       = <[ "s1" := Submission.mk "c1" "alice" "approved" (Some "bob") (Some 2000) ]>
           (challengeSubmissions db)
     ∧ creditTransactions db'
       = creditTransactions db ++
         [ CreditTransaction.mk "alice" 50 "challenge_reward" (Some "c1")
             ("Challenge completed: " +:+ "Run a mile") (750 + 50) ]
     ∧ users db' = <[ "alice" := User.mk (750 + 50) None (Some 2000) ]> (users db))
  ∧ reviewSubmission "s1" rejected "bob" 2000 db
    = (set_challengeSubmissions
         (insert "s1" (Submission.mk "c1" "alice" "rejected" (Some "bob") (Some 2000))) db,
       Returned)
  ∧ reviewSubmission "s9" approved "bob" 2000 db = (db, Thrown)
  ∧ reviewSubmission "s9" rejected "bob" 2000 db = (db, Returned).
Proof.
  intros db. split_and!.
  - apply (proj1 (reviewSubmission_effect "s1" "bob" 2000 db)
             (Submission.mk "c1" "alice" "approved" (Some "bob") (Some 1000))
             (User.mk 500 None None) (Challenge.mk "Run a mile" 50)
             (User.mk 750 None (Some 1000)));
      vm_compute; reflexivity.
  - apply (proj1 (proj2 (reviewSubmission_effect "s1" "bob" 2000 db))
             (Submission.mk "c1" "alice" "approved" (Some "bob") (Some 1000))
             (User.mk 500 None None));
      vm_compute; reflexivity.
  - apply (proj2 (proj2 (reviewSubmission_effect "s9" "bob" 2000 db))).
    vm_compute; reflexivity.
  - apply (proj2 (proj2 (reviewSubmission_effect "s9" "bob" 2000 db))).
    vm_compute; reflexivity.
Defined.

(** C7 does not hold as stated: neither the sign of the amount nor the
    status of the event is looked at.  A bet on an event that is already
    resolved is created and debited, and a bet of a negative amount is
    created and pays its player. *)
Lemma bet_on_resolved_event_is_placed :
  let db := (resolveBettingEvent "ev" "yes" "admin" 1000 sample_db).1 in
  let r := placeBet "b2" (InsertBet.mk "ev" "no" "bob" 100) 2000 db in
  let r0 := placeBet "b3" (InsertBet.mk "ev" "no" "bob" (-50)) 2000 sample_db in
  BettingEvent.status <$> bettingEvents db !! "ev" = Some "resolved"
  ∧ r.2 = Returned
  ∧ bets db !! "b2" = None
  ∧ bets r.1 !! "b2" = Some (Bet.mk "ev" "no" "bob" 100 "active" None)
  ∧ new_entries db r.1
    = [CreditTransaction.mk "bob" (-100) "bet_placed" (Some "ev") "Bet placed" 400]
  ∧ BettingEvent.status <$> bettingEvents sample_db !! "ev" = Some "open"
  ∧ r0.2 = Returned
  ∧ bets r0.1 !! "b3" = Some (Bet.mk "ev" "no" "bob" (-50) "active" None)
  ∧ new_entries sample_db r0.1
    = [CreditTransaction.mk "bob" 50 "bet_placed" (Some "ev") "Bet placed" 550].
Proof. vm_compute. by split_and!. Qed.

(** C7, amended. [placeBet] looks neither at the sign of the amount nor at
    the status of the event.  With a fresh id, the event, the option and
    the player in place and the amount and the new balance fitting the
    column, it returns having created the bet with status active and
    debited exactly [amount] from the player by one [bet_placed] entry.
    When the event, the option or the player does not exist it throws.
    Whenever it throws nothing has changed, and whenever it returns the
    bet and its debit are both there. *)
Theorem placeBet_effect (id : string) (bet : InsertBet.t) (now : Z) (db : Db) :
  (∀ event option player,
     bets db !! id = None →
     bettingEvents db !! InsertBet.eventId bet = Some event →
     bettingOptions db !! InsertBet.optionId bet = Some option →
     users db !! InsertBet.userId bet = Some player →
     int4 (InsertBet.amount bet) = true →
     int4 (- InsertBet.amount bet) = true →
     int4 (User.credits player - InsertBet.amount bet) = true →
     ∃ db', placeBet id bet now db = (db', Returned)
            ∧ bet_placed_in id bet now player db db')
  ∧ (bettingEvents db !! InsertBet.eventId bet = None
     ∨ bettingOptions db !! InsertBet.optionId bet = None
     ∨ users db !! InsertBet.userId bet = None →
     placeBet id bet now db = (db, Thrown))
  ∧ (∀ db', placeBet id bet now db = (db', Thrown) → db' = db)
  ∧ (∀ db', placeBet id bet now db = (db', Returned) →
       ∃ player, users db !! InsertBet.userId bet = Some player
                 ∧ bet_placed_in id bet now player db db').
Proof.
  split_and!.
  - intros event option player Hid He Ho Hu Ha Hn Hc.
    unfold placeBet. rewrite Hid, He, Ho, Hu, Ha. cbn [negb].
    rewrite (updateUserCredits_returns (InsertBet.userId bet) _ _ _ _ _ _ player) by done.
    cbn [andThen]. eexists. split; [reflexivity|]. by split_and!.
  - intros Hmiss. unfold placeBet. destruct (bets db !! id); [done|].
    destruct Hmiss as [H|[H|H]]; rewrite H; by repeat case_match.
  - intros db'. unfold placeBet. repeat case_match; try congruence.
    match goal with |- context [updateUserCredits ?a ?b ?c ?d ?e ?f ?g] =>
      destruct (updateUserCredits a b c d e f g) as [db1 []] eqn:Hupd
    end; simpl; [congruence|].
    apply updateUserCredits_throws in Hupd as ->. intros [= <-]. by destruct db.
  - intros db'. unfold placeBet. repeat case_match; try congruence.
    match goal with |- context [updateUserCredits ?a ?b ?c ?d ?e ?f ?g] =>
      destruct (updateUserCredits_cases a b c d e f g) as [->|(u & Hu & _ & _ & ->)]
    end; simpl; [congruence|].
    intros [= <-]. simpl in Hu. exists u. split; [congruence|].
    split_and!; simpl; try done.
Qed.

Lemma placeBet_effect_witness :
  let db := (resolveBettingEvent "ev" "yes" "admin" 1000 sample_db).1 in
  let bet := InsertBet.mk "ev" "no" "bob" 100 in
  (∃ db', placeBet "b2" bet 2000 db = (db', Returned)
          ∧ bet_placed_in "b2" bet 2000 (User.mk 500 None None) db db')
  ∧ placeBet "b2" (InsertBet.mk "nowhere" "no" "bob" 100) 2000 db = (db, Thrown).
Proof.
  intros db bet. split.
  - apply (proj1 (placeBet_effect "b2" bet 2000 db)
             (BettingEvent.mk "resolved" (Some 1000) (Some "yes"))
             (BettingOption.mk "ev" 115) (User.mk 500 None None));
      vm_compute; reflexivity.
  - apply (proj1 (proj2 (placeBet_effect "b2" (InsertBet.mk "nowhere" "no" "bob" 100)
                           2000 db))).
    left. vm_compute; reflexivity.
Defined.

(** C8 does not hold as stated: the bet's status is not looked at.  A bet
    that is already cancelled is cancelled again and refunded a second
    time, and a bet that has won is cancelled and refunded. *)
Lemma cancelled_bet_is_refunded_again :
  let db := (cancelBet "b1" "alice" 1000 sample_db).1 in
  let r := cancelBet "b1" "alice" 2000 db in
  let won := (resolveBettingEvent "ev" "yes" "admin" 1000 sample_db).1 in
  let r0 := cancelBet "b1" "alice" 2000 won in
  bets db !! "b1" = Some (Bet.mk "ev" "yes" "alice" 300 "cancelled" None)
  ∧ r.2 = Returned
  ∧ new_entries db r.1
    = [ CreditTransaction.mk "alice" 300 "bet_cancelled" (Some "ev")
          "Bet cancelled and refunded" 1300 ]
  ∧ balances db !! "alice" = Some 1000
  ∧ balances r.1 !! "alice" = Some 1300
  ∧ bets won !! "b1" = Some (Bet.mk "ev" "yes" "alice" 300 "won" (Some 600))
  ∧ r0.2 = Returned
  ∧ bets r0.1 !! "b1" = Some (Bet.mk "ev" "yes" "alice" 300 "cancelled" (Some 600))
  ∧ new_entries won r0.1
    = [ CreditTransaction.mk "alice" 300 "bet_cancelled" (Some "ev")
          "Bet cancelled and refunded" 1600 ].
Proof. vm_compute. by split_and!. Qed.

(** C8, amended. [cancelBet] goes ahead whenever the bet exists and
    belongs to [userId], whatever its status: with the player in place and
    the amount and the new balance fitting the column, it returns having
    set the bet's status to cancelled and credited the full amount back by
    one [bet_cancelled] entry.  When no bet has the id, or the bet belongs
    to another player, it returns and nothing changes.  Whenever it throws
    nothing has changed. *)
Theorem cancelBet_effect (betId userId : string) (now : Z) (db : Db) :
  (∀ bet player,
     bets db !! betId = Some bet →
     Bet.userId bet = userId →
     users db !! userId = Some player →
     int4 (Bet.amount bet) = true →
     int4 (User.credits player + Bet.amount bet) = true →
     ∃ db',
       cancelBet betId userId now db = (db', Returned)
       ∧ bets db'
         = <[betId :=
               Bet.mk (Bet.eventId bet) (Bet.optionId bet) (Bet.userId bet)
                 (Bet.amount bet) "cancelled" (Bet.payout bet)]>
             (bets db)
       ∧ creditTransactions db'
         = creditTransactions db ++
           [ CreditTransaction.mk userId (Bet.amount bet) "bet_cancelled"
               (Some (Bet.eventId bet)) "Bet cancelled and refunded"
               (User.credits player + Bet.amount bet) ]
       ∧ users db'
         = <[userId :=
               User.mk (User.credits player + Bet.amount bet)
                 (User.lastStipendDate player) (Some now)]>
             (users db))
  ∧ (bets db !! betId = None ∨ (∃ bet, bets db !! betId = Some bet ∧ Bet.userId bet ≠ userId) →
     cancelBet betId userId now db = (db, Returned))
  ∧ (∀ db', cancelBet betId userId now db = (db', Thrown) → db' = db).
Proof.
  split_and!.
  - intros bet player Hbet <- Hu Ha Hc.
    unfold cancelBet. rewrite Hbet, String.eqb_refl. cbn [negb Bet.amount Bet.eventId].
    rewrite (updateUserCredits_returns (Bet.userId bet) _ _ _ _ _ _ player) by done.
    cbn [andThen]. eexists. split; [reflexivity|]. done.
  - intros [Hnone|(bet & Hbet & Hne)]; unfold cancelBet.
    + by rewrite Hnone.
    + rewrite Hbet. apply String.eqb_neq in Hne. by rewrite Hne.
  - intros db'. unfold cancelBet. repeat case_match; try congruence.
    match goal with |- context [updateUserCredits ?a ?b ?c ?d ?e ?f ?g] =>
      destruct (updateUserCredits a b c d e f g) as [db1 []] eqn:Hupd
    end; simpl; [congruence|].
    apply updateUserCredits_throws in Hupd as ->. intros [= <-]. by destruct db.
Qed.

Lemma cancelBet_effect_witness :
  let db := (cancelBet "b1" "alice" 1000 sample_db).1 in
  (∃ db',
     cancelBet "b1" "alice" 2000 db = (db', Returned)
     ∧ bets db' = <[ "b1" := Bet.mk "ev" "yes" "alice" 300 "cancelled" None ]> (bets db)
     ∧ creditTransactions db'
       = creditTransactions db ++
         [ CreditTransaction.mk "alice" 300 "bet_cancelled" (Some "ev")
             "Bet cancelled and refunded" (1000 + 300) ]
     ∧ users db' = <[ "alice" := User.mk (1000 + 300) None (Some 2000) ]> (users db))
  ∧ cancelBet "b1" "bob" 2000 db = (db, Returned).
Proof.
  intros db. split.
  - apply (proj1 (cancelBet_effect "b1" "alice" 2000 db)
             (Bet.mk "ev" "yes" "alice" 300 "cancelled" None)
             (User.mk 1000 None (Some 1000)));
      vm_compute; reflexivity.
  - apply (proj1 (proj2 (cancelBet_effect "b1" "bob" 2000 db))).
    right. exists (Bet.mk "ev" "yes" "alice" 300 "cancelled" None).
    split; [vm_compute; reflexivity|discriminate].
Defined.

(** * Further properties of the storage layer *)

(** ** Bounds and totals *)

Lemma balances_in_range_insert db id u' :
  balances_in_range db → int4 (User.credits u') = true →
  ∀ db', users db' = <[id := u']> (users db) → balances_in_range db'.
Proof.
  intros Hin Hu' db' Hdb' id2 u2. rewrite Hdb'.
  intros [[-> <-]|[_ Hu2]]%lookup_insert_Some; [done|by eapply Hin].
Qed.

Lemma run_in_range now op db :
  balances_in_range db → balances_in_range (run now op db).1.
Proof.
  apply (run_applications (λ db db', balances_in_range db → balances_in_range db')).
  - done.
  - eauto.
  - intros ??? Hu _ H12 H1 id u. rewrite Hu. by apply H12.
  - intros ??? Hu _ H12 H1. apply H12. intros id u. rewrite <- Hu. by apply H1.
  - intros userId amount type description referenceId now' db1 Hin.
    destruct (updateUserCredits_cases userId amount type description referenceId now' db1)
      as [->|(u & Hu & _ & Hc & ->)]; [done|].
    by apply (balances_in_range_insert db1 userId
                (User.mk (User.credits u + amount) (User.lastStipendDate u) (Some now'))).
  - intros now' [id user] db1 Hin. unfold stipend_transaction.
    destruct (users db1 !! id) as [u|] eqn:Hu; [|done].
    simpl. destruct (int4 (User.credits u + 200)) eqn:Hc; simpl; [|done].
    destruct (int4 (User.credits user + 200)); simpl; [|done].
    by apply (balances_in_range_insert db1 id
                (User.mk (User.credits u + 200) (Some now') (Some now'))).
Qed.

(** X2. No balance leaves the 32-bit range: from a state in which every
    player's [credits] fits the [integer] column, every core operation
    leaves such a state, whether it returns or throws (an application that
    would overflow throws instead). *)
Theorem balances_stay_in_range (now : Z) (op : Op) (db : Db) :
  balances_in_range db → balances_in_range (run now op db).1.
Proof. apply run_in_range. Qed.

Lemma sample_db_in_range : balances_in_range sample_db.
Proof.
  intros id u Hu. simpl in Hu.
  apply lookup_insert_Some in Hu as [[<- <-]|[_ Hu]]; [reflexivity|].
  apply lookup_singleton_Some in Hu as [<- <-]. reflexivity.
Defined.

Lemma balances_stay_in_range_witness :
  balances_in_range sample_db
  ∧ balances_in_range
      (run 1000 (UpdateUserCredits "bob" 2147483647 "bet_win" "Jackpot" None) sample_db).1.
Proof.
  split; [exact sample_db_in_range|].
  apply (balances_stay_in_range 1000
           (UpdateUserCredits "bob" 2147483647 "bet_win" "Jackpot" None) sample_db).
  exact sample_db_in_range.
Defined.

Lemma total_amount_app es1 es2 :
  total_amount (es1 ++ es2) = total_amount es1 + total_amount es2.
Proof. unfold total_amount. induction es1 as [|e es1 IH]; simpl; lia. Qed.

Lemma sum_credits_Permutation (l1 l2 : list (string * User.t)) :
  l1 ≡ₚ l2 →
  foldr (λ row sum, User.credits row.2 + sum) 0 l1
  = foldr (λ row sum, User.credits row.2 + sum) 0 l2.
Proof. induction 1; simpl; lia. Qed.

Lemma total_credits_insert db db' id u u' :
  users db !! id = Some u →
  users db' = <[id := u']> (users db) →
  total_credits db' = total_credits db - User.credits u + User.credits u'.
Proof.
  intros Hu Hdb'. unfold total_credits. rewrite Hdb'.
  rewrite <- (insert_delete_id (users db) id u Hu) at 2.
  rewrite <- (insert_delete_eq (users db)).
  rewrite !(sum_credits_Permutation _ _
              (map_to_list_insert (delete id (users db)) id _ (lookup_delete_eq _ _))).
  simpl. lia.
Qed.

Lemma run_total_credits now op db :
  ∃ new,
    creditTransactions (run now op db).1 = creditTransactions db ++ new
    ∧ total_credits (run now op db).1 = total_credits db + total_amount new.
Proof.
  apply (run_applications
           (λ db db', ∃ new, creditTransactions db' = creditTransactions db ++ new
                             ∧ total_credits db' = total_credits db + total_amount new)).
  - intros db1. exists []. rewrite app_nil_r. simpl. split; [done|lia].
  - intros db1 db2 db3 (n1 & E1 & T1) (n2 & E2 & T2). exists (n1 ++ n2). split.
    + by rewrite E2, E1, app_assoc.
    + rewrite total_amount_app. lia.
  - intros db1 db2 db2' Hu Hc (n & E & T). exists n. unfold total_credits in *.
    by rewrite Hu, Hc.
  - intros db1 db1' db2 Hu Hc (n & E & T). exists n. unfold total_credits in *.
    by rewrite Hu, Hc.
  - intros userId amount type description referenceId now' db1.
    destruct (updateUserCredits_cases userId amount type description referenceId now' db1)
      as [->|(u & Hu & _ & _ & ->)]; simpl.
    + exists []. rewrite app_nil_r. simpl. split; [done|lia].
    + eexists [_]. split; [reflexivity|].
      erewrite total_credits_insert; [|exact Hu|reflexivity]. simpl. lia.
  - intros now' [id user] db1. unfold stipend_transaction.
    destruct (users db1 !! id) as [u|] eqn:Hu;
      [|exists []; rewrite app_nil_r; simpl; split; [done|lia]].
    simpl. destruct (int4 (User.credits u + 200)); simpl;
      [|exists []; rewrite app_nil_r; simpl; split; [done|lia]].
    destruct (int4 (User.credits user + 200)); simpl;
      [|exists []; rewrite app_nil_r; simpl; split; [done|lia]].
    eexists [_]. split; [reflexivity|].
    erewrite total_credits_insert; [|exact Hu|reflexivity]. simpl. lia.
Qed.

Lemma total_credits_follow_ledger_aux now op db :
  total_credits (run now op db).1
  = total_credits db + total_amount (new_entries db (run now op db).1).
Proof.
  destruct (run_total_credits now op db) as (new & Hnew & Htotal).
  by rewrite (new_entries_app _ _ _ Hnew).
Qed.

(** X3. Credits are created and destroyed through the ledger only: across
    every core operation, returning or throwing, the credits of all
    players together move by exactly the amounts of the entries the
    operation appended. *)
Theorem total_credits_follow_ledger (now : Z) (op : Op) (db : Db) :
  total_credits (run now op db).1
  = total_credits db + total_amount (new_entries db (run now op db).1).
Proof. apply total_credits_follow_ledger_aux. Qed.

Lemma fundLoan_returned_net loanId lenderId now db db' :
  fundLoan loanId lenderId now db = (db', Returned) →
  total_amount (new_entries db db') = 0.
Proof.
  unfold fundLoan. destruct (loans db !! loanId) as [row|]; [|intros [= <-]].
  - destruct (users db !! lenderId); [|done]. cbn [Loan.amount Loan.borrowerId].
    match goal with |- context [andThen _ (updateUserCredits ?a ?b ?c ?d ?e ?f ?g)] =>
      destruct (updateUserCredits_cases a b c d e f g) as [->|(u & Hu & _ & _ & ->)]
    end; [done|]. cbn [andThen].
    match goal with |- context [andThen _ (updateUserCredits ?a ?b ?c ?d ?e ?f ?g)] =>
      destruct (updateUserCredits_cases a b c d e f g) as [->|(u2 & Hu2 & _ & _ & ->)]
    end; [done|]. cbn [andThen]. intros [= <-].
    erewrite new_entries_app; [|simpl; rewrite <- app_assoc; reflexivity].
    simpl. lia.
  - unfold new_entries. by rewrite drop_all.
Qed.

Lemma repayLoan_returned_net loanId now db db' :
  repayLoan loanId now db = (db', Returned) →
  total_amount (new_entries db db') = 0.
Proof.
  unfold repayLoan. destruct (loans db !! loanId) as [row|]; [|intros [= <-]].
  - cbn [Loan.lenderId Loan.totalRepayment Loan.borrowerId].
    destruct (truthy (Loan.lenderId row)) as [lenderId|].
    + match goal with |- context [andThen _ (updateUserCredits ?a ?b ?c ?d ?e ?f ?g)] =>
        destruct (updateUserCredits_cases a b c d e f g) as [->|(u & Hu & _ & _ & ->)]
      end; [done|]. cbn [andThen].
      match goal with |- context [andThen _ (updateUserCredits ?a ?b ?c ?d ?e ?f ?g)] =>
        destruct (updateUserCredits_cases a b c d e f g) as [->|(u2 & Hu2 & _ & _ & ->)]
      end; [done|]. cbn [andThen]. intros [= <-].
      erewrite new_entries_app; [|simpl; rewrite <- app_assoc; reflexivity].
      simpl. lia.
    + intros [= <-]. unfold new_entries. simpl. by rewrite drop_all.
  - unfold new_entries. by rewrite drop_all.
Qed.

(** X4. Loans move credits between players and neither create nor destroy
    them: when [fundLoan] or [repayLoan] returns, the credits of all
    players together are what they were before the call. *)
Theorem loans_conserve_credits (now : Z) (op : Op) (db : Db) :
  match op with FundLoan _ _ | RepayLoan _ => True | _ => False end →
  (run now op db).2 = Returned →
  total_credits (run now op db).1 = total_credits db.
Proof.
  intros Hop Hret. rewrite total_credits_follow_ledger_aux.
  destruct op; try done; simpl in *.
  - destruct (fundLoan loanId lenderId now db) as [db' out] eqn:Hf. simpl in *. subst out.
    rewrite (fundLoan_returned_net _ _ _ _ _ Hf). lia.
  - destruct (repayLoan loanId now db) as [db' out] eqn:Hf. simpl in *. subst out.
    rewrite (repayLoan_returned_net _ _ _ _ Hf). lia.
Qed.

Lemma loans_conserve_credits_witness :
  total_credits (run 1000 (FundLoan "l1" "alice") sample_db).1 = total_credits sample_db.
Proof.
  apply (loans_conserve_credits 1000 (FundLoan "l1" "alice") sample_db); [exact I|].
  vm_compute; reflexivity.
Defined.

(** ** What a throw leaves behind *)

Lemma andThen_thrown_tables db0 r k :
  (∀ db1, (k db1).2 = Thrown → same_tables db0 (k db1).1) →
  (andThen db0 r k).2 = Thrown → same_tables db0 (andThen db0 r k).1.
Proof. intros Hk. destruct r as [db1 []]; simpl; [apply Hk|done]. Qed.

Lemma stipend_loop_tables now rows db :
  same_tables db (for_each (stipend_transaction now) rows db).1.
Proof.
  revert db. induction rows as [|[id user] rows IH]; intros db; cbn [for_each]; [done|].
  destruct (stipend_transaction now (id, user) db) as [db1 out] eqn:Hst.
  assert (same_tables db db1) as Hstep.
  { unfold stipend_transaction in Hst. repeat case_match; by simplify_eq/=. }
  destruct out; [|done].
  destruct (IH db1) as (? & ? & ? & ? & ? & ?), Hstep as (? & ? & ? & ? & ? & ?).
  split_and!; congruence.
Qed.

Lemma run_thrown_tables now op db :
  (run now op db).2 = Thrown → same_tables db (run now op db).1.
Proof.
  destruct op; simpl.
  - unfold updateUserCredits. by repeat case_match.
  - intros _. apply stipend_loop_tables.
  - unfold reviewSubmission. repeat case_match; try done;
      repeat (apply andThen_thrown_tables; intros ?); done.
  - unfold placeBet. repeat case_match; try done;
      repeat (apply andThen_thrown_tables; intros ?); done.
  - unfold cancelBet. repeat case_match; try done;
      repeat (apply andThen_thrown_tables; intros ?); done.
  - unfold resolveBettingEvent. repeat (apply andThen_thrown_tables; intros ?); done.
  - unfold fundLoan. repeat case_match; try done;
      repeat (apply andThen_thrown_tables; intros ?); done.
  - unfold repayLoan. repeat case_match; try done;
      repeat (apply andThen_thrown_tables; intros ?); done.
Qed.

(** X5. A throw undoes what was written through the transaction: when a
    core operation throws, the challenges, submissions, betting events,
    options, bets and loans are exactly what they were before the call;
    only credits that had been applied before the throw, with their
    ledger entries, remain, and these entries carry the right snapshots
    unless the operation is a stipend loop on rows that are no longer
    fresh. *)
Theorem thrown_leaves_tables (now : Z) (op : Op) (db : Db) :
  (run now op db).2 = Thrown →
  same_tables db (run now op db).1
  ∧ applied db (run now op db).1
  ∧ (reads_fresh op db → extends db (run now op db).1).
Proof.
  intros Hthrown. split_and!;
    [by apply run_thrown_tables|apply run_applied|apply run_extends].
Qed.

Lemma thrown_leaves_tables_witness :
  let op := PlaceBet "b2" (InsertBet.mk "ev" "no" "bob" (-2147483648)) in
  same_tables sample_db (run 1000 op sample_db).1
  ∧ applied sample_db (run 1000 op sample_db).1
  ∧ (reads_fresh op sample_db → extends sample_db (run 1000 op sample_db).1).
Proof.
  apply (thrown_leaves_tables 1000
           (PlaceBet "b2" (InsertBet.mk "ev" "no" "bob" (-2147483648))) sample_db).
  vm_compute; reflexivity.
Defined.

(** ** Referential integrity *)

Section References.

Implicit Types (db : Db).

Lemma references_kept_refl db : references_hold db → references_kept db db.
Proof. by split. Qed.

Lemma references_kept_apply db0 db id u u' e :
  references_kept db0 db → users db !! id = Some u → CreditTransaction.userId e = id →
  references_kept db0 (add_creditTransaction e (set_users (insert id u') db)).
Proof.
  intros [Href Hk] Hu He.
  assert (∀ k, is_Some (users db !! k) → is_Some (<[id := u']> (users db) !! k)) as Hins.
  { intros k Hsome. destruct (decide (id = k)) as [->|Hne];
      [by rewrite lookup_insert_eq|by rewrite lookup_insert_ne]. }
  destruct Href as (Hs & Ho & Hb & Hl & Hes). split; [|by auto].
  split_and!; simpl.
  - intros id' s Hid. destruct (Hs id' s Hid) as (? & ? & ?). split_and!; eauto.
  - done.
  - intros id' b Hid. destruct (Hb id' b Hid) as (? & ? & ?). split_and!; eauto.
  - intros id' l Hid. destruct (Hl id' l Hid) as (? & ?). split_and!; eauto.
  - intros e' [Hin|Hin]%elem_of_app; [by auto|].
    apply list_elem_of_singleton in Hin as ->. rewrite He. by rewrite lookup_insert_eq.
Qed.

Lemma references_kept_update db0 userId amount type description referenceId now db :
  references_kept db0 db →
  references_kept db0 (updateUserCredits userId amount type description referenceId now db).1.
Proof.
  intros Hk.
  destruct (updateUserCredits_cases userId amount type description referenceId now db)
    as [->|(u & Hu & _ & _ & ->)]; [done|]. by eapply references_kept_apply.
Qed.

Lemma references_kept_stipend db0 now row db :
  references_kept db0 db → references_kept db0 (stipend_transaction now row db).1.
Proof.
  intros Hk. destruct row as [id user]. unfold stipend_transaction.
  destruct (users db !! id) as [u|] eqn:Hu; [|done].
  repeat case_match; try done. by eapply references_kept_apply.
Qed.

Lemma references_kept_rollback db0 db : references_hold db0 → references_kept db0 db → references_kept db0 (rollback db0 db).
Proof.
  intros (Hs & Ho & Hb & Hl & He) [(_ & _ & _ & _ & He') Hk]. split; [|done].
  split_and!; simpl.
  - intros id s Hid. destruct (Hs id s Hid) as (? & ? & ?). split_and!; eauto.
  - done.
  - intros id b Hid. destruct (Hb id b Hid) as (? & ? & ?). split_and!; eauto.
  - intros id l Hid. destruct (Hl id l Hid) as (? & ?). split_and!; eauto.
  - done.
Qed.

Lemma references_kept_andThen db0 r k :
  references_hold db0 → references_kept db0 r.1 → (∀ db1, references_kept db0 db1 → references_kept db0 (k db1).1) →
  references_kept db0 (andThen db0 r k).1.
Proof.
  intros H0 Hr Hk. destruct r as [db1 []]; simpl in *; [by apply Hk|by apply references_kept_rollback].
Qed.

Lemma references_kept_for_each {A} db0 (body : A → Db → Db * Outcome) xs db :
  (∀ x db1, references_kept db0 db1 → references_kept db0 (body x db1).1) →
  references_kept db0 db → references_kept db0 (for_each body xs db).1.
Proof.
  intros Hbody. revert db. induction xs as [|x xs IH]; intros db Hdb; simpl; [done|].
  specialize (Hbody x db Hdb). destruct (body x db) as [db1 []]; simpl in *; auto.
Qed.

(** Writing a row whose references exist. *)
Lemma references_kept_set_challengeSubmissions db0 db id s :
  references_kept db0 db →
  is_Some (challenges db !! Submission.challengeId s) →
  is_Some (users db !! Submission.userId s) →
  (∀ reviewer, Submission.reviewedBy s = Some reviewer → is_Some (users db !! reviewer)) →
  references_kept db0 (set_challengeSubmissions (insert id s) db).
Proof.
  intros [(Hs & Ho & Hb & Hl & He) Hk] ???. split; [|done]. split_and!; simpl; try done.
  intros id' s' [[-> <-]|[_ Hid]]%lookup_insert_Some; [done|by eapply Hs].
Qed.

Lemma references_kept_set_bets db0 db (f : gmap string Bet.t → gmap string Bet.t) :
  references_kept db0 db →
  (∀ id b, f (bets db) !! id = Some b →
     is_Some (bettingEvents db !! Bet.eventId b)
     ∧ is_Some (bettingOptions db !! Bet.optionId b)
     ∧ is_Some (users db !! Bet.userId b)) →
  references_kept db0 (set_bets f db).
Proof.
  intros [(Hs & Ho & Hb & Hl & He) Hk] ?. split; [|done]. by split_and!.
Qed.

Lemma references_kept_set_loans db0 db id l :
  references_kept db0 db →
  is_Some (users db !! Loan.borrowerId l) →
  (∀ lender, Loan.lenderId l = Some lender → is_Some (users db !! lender)) →
  references_kept db0 (set_loans (insert id l) db).
Proof.
  intros [(Hs & Ho & Hb & Hl & He) Hk] ??. split; [|done]. split_and!; simpl; try done.
  intros id' l' [[-> <-]|[_ Hid]]%lookup_insert_Some; [done|by eapply Hl].
Qed.

Lemma references_kept_set_bettingEvents db0 db (f : BettingEvent.t → BettingEvent.t) id :
  references_kept db0 db → references_kept db0 (set_bettingEvents (alter f id) db).
Proof.
  intros [(Hs & Ho & Hb & Hl & He) Hk]. split; [|done].
  assert (∀ k, is_Some (bettingEvents db !! k) →
               is_Some (alter f id (bettingEvents db) !! k)) as Hev.
  { intros k. rewrite lookup_alter. case_decide; [subst|done]. apply fmap_is_Some. }
  split_and!; simpl; try done.
  - intros id' o Hid. by apply Hev, (Ho id').
  - intros id' b Hid. destruct (Hb id' b Hid) as (? & ? & ?). split_and!; auto.
Qed.

Lemma run_references_kept now op db : references_hold db → references_kept db (run now op db).1.
Proof.
  intros Href. pose proof (references_kept_refl db Href) as Hdb.
  pose proof Href as (Hs & Ho & Hb & Hl & He).
  destruct op; simpl.
  - by apply references_kept_update.
  - unfold processWeeklyStipends. apply references_kept_for_each; [|done].
    intros row db1. apply references_kept_stipend.
  - unfold reviewSubmission.
    destruct (challengeSubmissions db !! submissionId) as [row|] eqn:Hrow;
      [|by destruct status].
    destruct (users db !! reviewerId) eqn:Hrev; [|done].
    destruct (Hs _ _ Hrow) as (? & ? & ?).
    assert (references_kept db (set_challengeSubmissions
              (insert submissionId
                 (Submission.mk (Submission.challengeId row) (Submission.userId row)
                    (decision_status status) (Some reviewerId) (Some now))) db)) as Hw.
    { apply references_kept_set_challengeSubmissions; simpl; [done..|]. intros ? [= <-]. by eexists. }
    destruct status; [|done]. simpl. case_match; [|done].
    apply references_kept_andThen; [done|by apply references_kept_update|done].
  - unfold placeBet. destruct (bets db !! id) eqn:Hid; [done|].
    destruct (bettingEvents db !! InsertBet.eventId bet) eqn:Hev;
      destruct (bettingOptions db !! InsertBet.optionId bet) eqn:Hopt;
      destruct (users db !! InsertBet.userId bet) eqn:Hu; try done.
    case_match; [done|]. apply references_kept_andThen; [done| |done].
    apply references_kept_update, references_kept_set_bets; [done|].
    intros id' b [[-> <-]|[_ Hid']]%lookup_insert_Some; [simpl; by eauto|by eapply Hb].
  - unfold cancelBet. destruct (bets db !! betId) as [row|] eqn:Hrow; [|done].
    case_match; [done|]. apply references_kept_andThen; [done| |done].
    apply references_kept_update, references_kept_set_bets; [done|].
    intros id' b [[-> <-]|[_ Hid']]%lookup_insert_Some; [simpl; by eapply Hb|by eapply Hb].
  - unfold resolveBettingEvent. apply references_kept_andThen; [done| |].
    + apply references_kept_for_each.
      * intros [[id bet] option] db1 Hdb1. unfold pay_winner.
        repeat case_match; try done.
        apply references_kept_update, references_kept_set_bets; [done|].
        destruct Hdb1 as [(_ & _ & Hb1 & _) _].
        intros id' b. rewrite lookup_alter. case_decide; [subst|by apply Hb1].
        destruct (bets db1 !! id') as [b'|] eqn:Hb'; [|done].
        intros [= <-]. simpl. by apply (Hb1 id').
      * destruct (references_kept_set_bettingEvents db db (mark_resolved winningOptionId now) eventId Hdb).
        by split.
    + intros db1 Hdb1. apply references_kept_set_bets; [done|].
      destruct Hdb1 as [(_ & _ & Hb1 & _) _].
      intros id' b. rewrite lookup_fmap.
      destruct (bets db1 !! id') as [b'|] eqn:Hb'; [|done].
      intros [= <-]. unfold mark_lost. case_match; simpl; by apply (Hb1 id').
  - unfold fundLoan. destruct (loans db !! loanId) as [row|] eqn:Hrow; [|done].
    destruct (users db !! lenderId) eqn:Hlender; [|done].
    destruct (Hl _ _ Hrow) as (? & ?).
    apply references_kept_andThen; [done| |].
    + apply references_kept_update, references_kept_set_loans; simpl; [done..|]. intros ? [= <-]. by eexists.
    + intros db1 Hdb1. apply references_kept_andThen; [done|by apply references_kept_update|done].
  - unfold repayLoan. destruct (loans db !! loanId) as [row|] eqn:Hrow; [|done].
    destruct (Hl _ _ Hrow) as (? & ?).
    assert (references_kept db (set_loans
              (insert loanId
                 (Loan.mk (Loan.borrowerId row) (Loan.lenderId row) (Loan.amount row)
                    (Loan.totalRepayment row) "repaid" (Loan.fundedAt row) (Some now))) db))
      as Hw by (by apply references_kept_set_loans).
    cbn [Loan.lenderId]. destruct (truthy (Loan.lenderId row)); [|done].
    apply references_kept_andThen; [done|by apply references_kept_update|].
    intros db1 Hdb1. apply references_kept_andThen; [done|by apply references_kept_update|done].
Qed.

End References.

(** X6. Referential integrity: from a state in which every submission, bet,
    option, loan and ledger entry refers to rows that exist (the foreign
    keys of the schema), every core operation leaves such a state, and it
    removes no player. *)
Theorem references_are_kept (now : Z) (op : Op) (db : Db) :
  references_hold db → references_kept db (run now op db).1.
Proof. apply run_references_kept. Qed.

Lemma sample_db_references : references_hold sample_db.
Proof.
  assert (is_Some (users sample_db !! "alice")) as Ha by (eexists; vm_compute; reflexivity).
  assert (is_Some (users sample_db !! "bob")) as Hbob by (eexists; vm_compute; reflexivity).
  split_and!; simpl.
  - intros id s [<- <-]%lookup_singleton_Some. simpl.
    split_and!; [eexists; vm_compute; reflexivity|exact Ha|done].
  - intros id o [[<- <-]|[_ [<- <-]%lookup_singleton_Some]]%lookup_insert_Some;
      eexists; vm_compute; reflexivity.
  - intros id b [<- <-]%lookup_singleton_Some. simpl.
    split_and!; [eexists; vm_compute; reflexivity..|exact Ha].
  - intros id l [<- <-]%lookup_singleton_Some. simpl. split; [exact Hbob|done].
  - intros e He. repeat (apply elem_of_cons in He as [->|He]); [exact Ha|exact Hbob|exact Ha|].
    by apply elem_of_nil in He.
Defined.

Lemma references_are_kept_witness :
  references_hold sample_db
  ∧ references_kept sample_db
      (run 1000 (ResolveBettingEvent "ev" "yes" "admin") sample_db).1.
Proof.
  split; [exact sample_db_references|].
  apply (references_are_kept 1000 (ResolveBettingEvent "ev" "yes" "admin") sample_db).
  exact sample_db_references.
Defined.

(** ** The weekly stipend *)

Section Stipends.

Implicit Types (db : Db) (rows : list (string * User.t)).


(** The loop leaves a player alone who is not among its rows. *)
Lemma stipend_loop_others now rows db id :
  id ∉ rows.*1 →
  let db' := (processWeeklyStipends now rows db).1 in
  users db' !! id = users db !! id
  ∧ ∀ e, e ∈ new_entries db db' → CreditTransaction.userId e ≠ id.
Proof.
  intros Hid. unfold processWeeklyStipends. cbv zeta.
  enough (∃ new, creditTransactions (for_each (stipend_transaction now) rows db).1
                 = creditTransactions db ++ new
                 ∧ users (for_each (stipend_transaction now) rows db).1 !! id
                   = users db !! id
                 ∧ ∀ e, e ∈ new → CreditTransaction.userId e ≠ id) as (new & Hnew & ? & ?).
  { by rewrite (new_entries_app _ _ _ Hnew). }
  revert db. induction rows as [|[id' user] rows IH]; intros db; cbn [for_each].
  { exists []. rewrite app_nil_r. split_and!; try done. intros ? []%elem_of_nil. }
  rewrite fmap_cons in Hid. apply not_elem_of_cons in Hid as [Hne Hid]. cbn [fst] in Hne.
  destruct (stipend_transaction now (id', user) db) as [db1 out] eqn:Hst.
  assert (∃ new, creditTransactions db1 = creditTransactions db ++ new
                 ∧ users db1 !! id = users db !! id
                 ∧ ∀ e, e ∈ new → CreditTransaction.userId e ≠ id) as Hstep.
  { unfold stipend_transaction in Hst. repeat case_match; simplify_eq/=;
      try (exists []; rewrite app_nil_r; split_and!; [done|done|intros ? []%elem_of_nil]).
    eexists [_]. split_and!; [done|by rewrite lookup_insert_ne|].
    by intros e ->%list_elem_of_singleton. }
  destruct out; [|exact Hstep]. simpl.
  destruct Hstep as (new1 & E1 & U1 & N1), (IH Hid db1) as (new2 & E2 & U2 & N2).
  exists (new1 ++ new2). split_and!.
  - by rewrite E2, E1, app_assoc.
  - congruence.
  - intros e [?|?]%elem_of_app; auto.
Qed.

(** A pass at [now] leaves every player dated [now] so dated. *)
Lemma stipend_loop_dated now rows db db' id :
  processWeeklyStipends now rows db = (db', Returned) →
  id ∈ rows.*1
  ∨ (∃ u, users db !! id = Some u ∧ User.lastStipendDate u = Some now) →
  ∃ u', users db' !! id = Some u' ∧ User.lastStipendDate u' = Some now.
Proof.
  unfold processWeeklyStipends.
  revert db. induction rows as [|[id' user] rows IH]; intros db; cbn [for_each].
  { intros [= <-] [[]%elem_of_nil|Hdated]. done. }
  unfold stipend_transaction at 1.
  destruct (users db !! id') as [u|] eqn:Hu; [|done]. cbn [User.credits].
  destruct (int4 (User.credits u + 200)); cbn [negb]; [|done].
  destruct (int4 (User.credits user + 200)); cbn [negb]; [|done].
  intros Hloop Hid. apply (IH _ Hloop). simpl.
  destruct (decide (id = id')) as [->|Hne].
  - right. rewrite lookup_insert_eq. by eexists.
  - rewrite lookup_insert_ne by done.
    destruct Hid as [Hid|Hid]; [left|by right].
    rewrite fmap_cons in Hid. by apply elem_of_cons in Hid as [?|?].
Qed.

Lemma select_eligibleUsers_elem offset now db id user :
  (id, user) ∈ select_eligibleUsers offset now db
  ↔ users db !! id = Some user
    ∧ stipend_eligible offset (now - 7 * 24 * 60 * 60 * 1000) (id, user) = true.
Proof.
  unfold select_eligibleUsers. cbv zeta.
  by rewrite list_elem_of_In, filter_In, <- list_elem_of_In, elem_of_map_to_list.
Qed.

Lemma select_eligibleUsers_keys offset now db id :
  id ∈ (select_eligibleUsers offset now db).*1
  ↔ ∃ user, users db !! id = Some user
            ∧ stipend_eligible offset (now - 7 * 24 * 60 * 60 * 1000) (id, user) = true.
Proof.
  split.
  - intros ([id' user] & -> & Hin)%list_elem_of_fmap.
    exists user. by apply select_eligibleUsers_elem.
  - intros (user & Hin%select_eligibleUsers_elem).
    apply list_elem_of_fmap. by exists (id, user).
Qed.

End Stipends.



(** X8. No second grant within a week on the clock of the process.  After
    a loop at [now] has returned, a player it granted is not selected by
    a selection at [now'] as long as [now'] plus the offset of the
    process's time zone is at most seven days after [now], and a loop
    over that selection, whether it returns or throws, leaves the player's
    row unchanged and adds no entry for the player.  Later than that the
    player is selected again: in a process whose time zone is ahead of
    UTC, before seven days have passed. *)
Theorem stipend_not_granted_twice (offset now now' : Z)
    (rows rows' : list (string * User.t)) (db db1 : Db) (id : string) :
  processWeeklyStipends now rows db = (db1, Returned) →
  id ∈ rows.*1 →
  rows' ≡ₚ select_eligibleUsers offset now' db1 →
  (now' + offset ≤ now + 7 * 24 * 60 * 60 * 1000 →
   (id ∉ rows'.*1)
   ∧ ∀ db2,
       let db3 := (processWeeklyStipends now' rows' db2).1 in
       users db3 !! id = users db2 !! id
       ∧ ∀ e, e ∈ new_entries db2 db3 → CreditTransaction.userId e ≠ id)
  ∧ (now + 7 * 24 * 60 * 60 * 1000 < now' + offset → id ∈ rows'.*1).
Proof.
  intros Hrun Hid Hperm.
  destruct (stipend_loop_dated now rows db db1 id Hrun (or_introl Hid))
    as (u1 & Hu1 & Hdate).
  assert (id ∈ rows'.*1 ↔ now + 7 * 24 * 60 * 60 * 1000 < now' + offset) as Hsel.
  { rewrite Hperm, select_eligibleUsers_keys. unfold stipend_eligible. split.
    - intros (user & Hu & Hel). rewrite Hu1 in Hu. injection Hu as <-.
      simpl in Hel. rewrite Hdate in Hel. apply Z.ltb_lt in Hel. lia.
    - intros Hlate. exists u1. split; [done|]. simpl. rewrite Hdate.
      apply Z.ltb_lt. lia. }
  split.
  - intros Hearly. assert (id ∉ rows'.*1) as Hnot by (rewrite Hsel; lia).
    split; [done|]. intros db2. by apply stipend_loop_others.
  - intros Hlate. by apply Hsel.
Qed.

Lemma stipend_not_granted_twice_witness :
  let rows := select_eligibleUsers 0 0 sample_db in
  let db1 := (processWeeklyStipends 0 rows sample_db).1 in
  let six_days_sixteen_hours := 576000000 in
  let nine_hours := 32400000 in
  ("alice" ∉ (select_eligibleUsers 0 six_days_sixteen_hours db1).*1)
  ∧ "alice" ∈ (select_eligibleUsers nine_hours six_days_sixteen_hours db1).*1.
Proof.
  intros rows db1 late tokyo. split.
  - apply (proj1 (stipend_not_granted_twice 0 0 late rows _ sample_db db1 "alice"
                    ltac:(vm_compute; reflexivity)
                    ltac:(vm_compute; left)
                    ltac:(reflexivity))).
    unfold late. lia.
  - apply (proj2 (stipend_not_granted_twice tokyo 0 late rows _ sample_db db1 "alice"
                    ltac:(vm_compute; reflexivity)
                    ltac:(vm_compute; left)
                    ltac:(reflexivity))).
    unfold late, tokyo. lia.
Defined.

(** X22. Snapshots are right where the rows are fresh.  For every
    operation that works on rows as they are in the database it runs on
    (each of the other seven operations, and a stipend loop that runs on
    the database its rows were selected from), the entries it creates
    replay in creation order from the balances before it: each carries in
    [balanceAfter] the balance of its player right after its amount was
    added, the replay ends in the balances after the operation, and the
    newest entry of every player keeps carrying the player's balance. *)
Theorem snapshots_of_fresh_rows (now : Z) (op : Op) (db : Db) :
  reads_fresh op db →
  newest_snapshot_current db →
  ∃ new,
    creditTransactions (run now op db).1 = creditTransactions db ++ new
    ∧ replay (balances db) new = Some (balances (run now op db).1)
    ∧ newest_snapshot_current (run now op db).1.
Proof. apply fresh_snapshots. Qed.

Lemma snapshots_of_fresh_rows_witness :
  let op := ProcessWeeklyStipends (select_eligibleUsers 0 1000 sample_db) in
  ∃ new,
    creditTransactions (run 1000 op sample_db).1 = creditTransactions sample_db ++ new
    ∧ replay (balances sample_db) new = Some (balances (run 1000 op sample_db).1)
    ∧ newest_snapshot_current (run 1000 op sample_db).1.
Proof.
  apply (snapshots_of_fresh_rows 1000
           (ProcessWeeklyStipends (select_eligibleUsers 0 1000 sample_db)) sample_db).
  - by apply (select_eligibleUsers_fresh 0 1000).
  - exact sample_db_newest.
Defined.

(** ** How the operations compose *)

(** X9. Placing a bet and cancelling it is a round trip for the balance:
    after a [placeBet] that returned, [cancelBet] by the same player
    returns, the bet is cancelled, the player has the credits held before
    the bet, and the two calls have left exactly the debit and the refund
    of the amount in the ledger. *)
Theorem placeBet_cancelBet_round_trip (id : string) (bet : InsertBet.t) (now now' : Z)
    (db db1 : Db) (player : User.t) :
  placeBet id bet now db = (db1, Returned) →
  users db !! InsertBet.userId bet = Some player →
  int4 (User.credits player) = true →
  ∃ db2,
    cancelBet id (InsertBet.userId bet) now' db1 = (db2, Returned)
    ∧ users db2
      = <[InsertBet.userId bet :=
            User.mk (User.credits player) (User.lastStipendDate player) (Some now')]>
          (users db)
    ∧ bets db2 !! id
      = Some (Bet.mk (InsertBet.eventId bet) (InsertBet.optionId bet) (InsertBet.userId bet)
                (InsertBet.amount bet) "cancelled" None)
    ∧ new_entries db db2
      = [ CreditTransaction.mk (InsertBet.userId bet) (- InsertBet.amount bet) "bet_placed"
            (Some (InsertBet.eventId bet)) "Bet placed"
            (User.credits player - InsertBet.amount bet);
          CreditTransaction.mk (InsertBet.userId bet) (InsertBet.amount bet) "bet_cancelled"
            (Some (InsertBet.eventId bet)) "Bet cancelled and refunded"
            (User.credits player) ].
Proof.
  intros Hplace Hu Hrange. unfold placeBet in Hplace.
  destruct (bets db !! id) eqn:Hid; [done|].
  destruct (bettingEvents db !! InsertBet.eventId bet); [|done].
  destruct (bettingOptions db !! InsertBet.optionId bet); [|done].
  rewrite Hu in Hplace.
  destruct (int4 (InsertBet.amount bet)) eqn:Ha; [|done]. cbn [negb] in Hplace.
  match type of Hplace with context [updateUserCredits ?a ?b ?c ?d ?e ?f ?g] =>
    destruct (updateUserCredits_cases a b c d e f g) as [Hupd|(u & Hu' & _ & _ & Hupd)];
      rewrite Hupd in Hplace
  end; [done|]. cbn [andThen] in Hplace. injection Hplace as <-.
  simpl in Hu'. rewrite Hu in Hu'. injection Hu' as <-.
  unfold cancelBet. cbn [bets add_creditTransaction set_users set_bets].
  rewrite lookup_insert_eq. cbn [Bet.userId]. rewrite String.eqb_refl.
  cbn [negb Bet.amount Bet.eventId Bet.optionId Bet.payout].
  rewrite (updateUserCredits_returns (InsertBet.userId bet) _ _ _ _ _ _
             (User.mk (User.credits player + - InsertBet.amount bet)
                (User.lastStipendDate player) (Some now)));
    [|by simpl; rewrite lookup_insert_eq|done|].
  2:{ simpl. by replace (User.credits player + - InsertBet.amount bet + InsertBet.amount bet)
        with (User.credits player) by lia. }
  cbn [andThen]. eexists. split; [reflexivity|]. simpl.
  replace (User.credits player + - InsertBet.amount bet + InsertBet.amount bet)
    with (User.credits player) by lia.
  replace (User.credits player + - InsertBet.amount bet)
    with (User.credits player - InsertBet.amount bet) by lia.
  split_and!.
  - by rewrite !insert_insert_eq.
  - by rewrite insert_insert_eq, lookup_insert_eq.
  - unfold new_entries. simpl. rewrite <- app_assoc. apply drop_app_length.
Qed.

Lemma placeBet_cancelBet_round_trip_witness :
  let bet := InsertBet.mk "ev" "no" "bob" 100 in
  let db1 := (placeBet "b2" bet 1000 sample_db).1 in
  ∃ db2,
    cancelBet "b2" "bob" 2000 db1 = (db2, Returned)
    ∧ users db2 = <[ "bob" := User.mk 500 None (Some 2000) ]> (users sample_db)
    ∧ bets db2 !! "b2" = Some (Bet.mk "ev" "no" "bob" 100 "cancelled" None)
    ∧ new_entries sample_db db2
      = [ CreditTransaction.mk "bob" (-100) "bet_placed" (Some "ev") "Bet placed" (500 - 100);
          CreditTransaction.mk "bob" 100 "bet_cancelled" (Some "ev")
            "Bet cancelled and refunded" 500 ].
Proof.
  apply (placeBet_cancelBet_round_trip "b2" (InsertBet.mk "ev" "no" "bob" 100) 1000 2000
           sample_db _ (User.mk 500 None None));
    vm_compute; reflexivity.
Defined.

(** X10. A loan that is funded and then repaid leaves the lender richer
    and the borrower poorer by the interest: after [fundLoan] and
    [repayLoan] have both returned for a loan between two players, the
    lender has [totalRepayment - amount] credits more than before, the
    borrower as many less, and the loan is repaid with its lender
    recorded. *)
Theorem fundLoan_repayLoan_interest (loanId lenderId : string) (now now' : Z)
    (db db1 db2 : Db) (loan : Loan.t) (lender borrower : User.t) :
  loans db !! loanId = Some loan →
  users db !! lenderId = Some lender →
  users db !! Loan.borrowerId loan = Some borrower →
  lenderId ≠ Loan.borrowerId loan →
  lenderId ≠ "" →
  fundLoan loanId lenderId now db = (db1, Returned) →
  repayLoan loanId now' db1 = (db2, Returned) →
  users db2 !! lenderId
  = Some (User.mk (User.credits lender + (Loan.totalRepayment loan - Loan.amount loan))
            (User.lastStipendDate lender) (Some now'))
  ∧ users db2 !! Loan.borrowerId loan
    = Some (User.mk (User.credits borrower - (Loan.totalRepayment loan - Loan.amount loan))
              (User.lastStipendDate borrower) (Some now'))
  ∧ loans db2 !! loanId
    = Some (Loan.mk (Loan.borrowerId loan) (Some lenderId) (Loan.amount loan)
              (Loan.totalRepayment loan) "repaid" (Some now) (Some now')).
Proof.
  intros Hloan Hlender Hborrower Hne Hne0 Hfund Hrepay.
  unfold fundLoan in Hfund. rewrite Hloan, Hlender in Hfund.
  cbn [Loan.amount Loan.borrowerId] in Hfund.
  match type of Hfund with context [andThen _ (updateUserCredits ?a ?b ?c ?d ?e ?f ?g)] =>
    destruct (updateUserCredits_cases a b c d e f g) as [Hupd|(u & Hu & _ & _ & Hupd)];
      rewrite Hupd in Hfund
  end; [done|]. cbn [andThen] in Hfund.
  simpl in Hu. rewrite Hlender in Hu. injection Hu as <-.
  match type of Hfund with context [andThen _ (updateUserCredits ?a ?b ?c ?d ?e ?f ?g)] =>
    destruct (updateUserCredits_cases a b c d e f g) as [Hupd2|(u & Hu & _ & _ & Hupd2)];
      rewrite Hupd2 in Hfund
  end; [done|]. cbn [andThen] in Hfund.
  simpl in Hu. rewrite lookup_insert_ne, Hborrower in Hu by done. injection Hu as <-.
  injection Hfund as <-.
  unfold repayLoan in Hrepay. cbn [loans add_creditTransaction set_users set_loans] in Hrepay.
  rewrite lookup_insert_eq in Hrepay.
  cbn [Loan.lenderId Loan.totalRepayment Loan.borrowerId Loan.amount Loan.fundedAt] in Hrepay.
  assert (truthy (Some lenderId) = Some lenderId) as Ht by by destruct lenderId.
  rewrite Ht in Hrepay.
  match type of Hrepay with context [andThen _ (updateUserCredits ?a ?b ?c ?d ?e ?f ?g)] =>
    destruct (updateUserCredits_cases a b c d e f g) as [Hupd3|(u & Hu & _ & _ & Hupd3)];
      rewrite Hupd3 in Hrepay
  end; [done|]. cbn [andThen] in Hrepay.
  simpl in Hu. rewrite lookup_insert_eq in Hu. injection Hu as <-.
  match type of Hrepay with context [andThen _ (updateUserCredits ?a ?b ?c ?d ?e ?f ?g)] =>
    destruct (updateUserCredits_cases a b c d e f g) as [Hupd4|(u & Hu & _ & _ & Hupd4)];
      rewrite Hupd4 in Hrepay
  end; [done|]. cbn [andThen] in Hrepay.
  simpl in Hu. rewrite lookup_insert_ne, lookup_insert_ne, lookup_insert_eq in Hu by done.
  injection Hu as <-. injection Hrepay as <-. simpl.
  split_and!.
  - rewrite lookup_insert_eq. do 2 f_equal. lia.
  - rewrite lookup_insert_ne, lookup_insert_eq by done. do 2 f_equal. lia.
  - by rewrite lookup_insert_eq.
Qed.

Lemma fundLoan_repayLoan_interest_witness :
  let db1 := (fundLoan "l1" "alice" 1000 sample_db).1 in
  let db2 := (repayLoan "l1" 2000 db1).1 in
  users db2 !! "alice" = Some (User.mk (700 + (550 - 500)) None (Some 2000))
  ∧ users db2 !! "bob" = Some (User.mk (500 - (550 - 500)) None (Some 2000))
  ∧ loans db2 !! "l1"
    = Some (Loan.mk "bob" (Some "alice") 500 550 "repaid" (Some 1000) (Some 2000)).
Proof.
  intros db1 db2.
  apply (fundLoan_repayLoan_interest "l1" "alice" 1000 2000 sample_db db1 db2
           (Loan.mk "bob" None 500 550 "pending" None None)
           (User.mk 700 None None) (User.mk 500 None None));
    first [discriminate | vm_compute; reflexivity].
Defined.

(** ** Settling an event *)

(** X11. What a returning [resolveBettingEvent] settles: the event, if it
    exists, is resolved with the winning option and the time recorded;
    every bet on it that was active on another option is lost, its payout
    left as it was; and provided every bet refers to an existing option,
    no bet on the event is active any more. *)
Theorem resolveBettingEvent_settles (eventId winningOptionId adminId : string)
    (now : Z) (db db' : Db) :
  resolveBettingEvent eventId winningOptionId adminId now db = (db', Returned) →
  bettingEvents db' !! eventId
  = mark_resolved winningOptionId now <$> bettingEvents db !! eventId
  ∧ (∀ id bet,
       bets db !! id = Some bet →
       Bet.eventId bet = eventId → Bet.status bet = "active" →
       Bet.optionId bet ≠ winningOptionId →
       bets db' !! id
       = Some (Bet.mk (Bet.eventId bet) (Bet.optionId bet) (Bet.userId bet)
                 (Bet.amount bet) "lost" (Bet.payout bet)))
  ∧ (bets_have_options db → no_active_bet eventId db').
Proof.
  intros Hres. split_and!.
  - apply resolveBettingEvent_spec in Hres as (new & _ & _ & _ & Hev & _).
    rewrite Hev. apply lookup_alter_eq.
  - intros id bet Hbet Hevent Hactive Hopt.
    apply resolveBettingEvent_spec in Hres as (new & _ & _ & _ & _ & Hother & _).
    rewrite Hother, Hbet; simpl.
    + unfold mark_lost.
      assert (is_losing_bet eventId winningOptionId bet = true) as ->
        by by apply is_losing_bet_true.
      done.
    + intros (bet' & o & Hrow)%row_ids_elem.
      apply select_winningBets_elem in Hrow as (Hbet' & _ & Hw).
      apply is_winning_bet_true in Hw as (_ & ? & _). congruence.
  - intros Hfk. by eapply resolveBettingEvent_settles_all.
Qed.

Lemma resolveBettingEvent_settles_witness :
  let db := (placeBet "b2" (InsertBet.mk "ev" "no" "bob" 100) 1000 sample_db).1 in
  let db' := (resolveBettingEvent "ev" "yes" "admin" 2000 db).1 in
  bettingEvents db' !! "ev" = mark_resolved "yes" 2000 <$> bettingEvents db !! "ev"
  ∧ (∀ id bet,
       bets db !! id = Some bet →
       Bet.eventId bet = "ev" → Bet.status bet = "active" →
       Bet.optionId bet ≠ "yes" →
       bets db' !! id
       = Some (Bet.mk (Bet.eventId bet) (Bet.optionId bet) (Bet.userId bet)
                 (Bet.amount bet) "lost" (Bet.payout bet)))
  ∧ (bets_have_options db → no_active_bet "ev" db').
Proof.
  intros db db'.
  apply (resolveBettingEvent_settles "ev" "yes" "admin" 2000 db db').
  vm_compute; reflexivity.
Defined.

(** X12. The winning option is not checked against the options of the
    event: when none of the active bets on the event is on
    [winningOptionId] (an id of no option included), [resolveBettingEvent]
    returns, pays nobody, and turns every active bet on the event into a
    lost one. *)
Theorem resolveBettingEvent_without_winner (eventId winningOptionId adminId : string)
    (now : Z) (db : Db) :
  (∀ id bet, bets db !! id = Some bet →
     Bet.eventId bet = eventId → Bet.status bet = "active" →
     Bet.optionId bet ≠ winningOptionId) →
  let r := resolveBettingEvent eventId winningOptionId adminId now db in
  r.2 = Returned
  ∧ creditTransactions r.1 = creditTransactions db
  ∧ users r.1 = users db
  ∧ bets r.1 = mark_lost eventId winningOptionId <$> bets db
  ∧ no_active_bet eventId r.1.
Proof.
  intros Hnone.
  assert (select_winningBets eventId winningOptionId db = []) as Hrows.
  { apply elem_of_nil_inv. intros [[id bet] o] Hin.
    apply select_winningBets_elem in Hin as (Hbet & _ & Hw).
    apply is_winning_bet_true in Hw as (? & ? & ?). by eapply Hnone. }
  unfold resolveBettingEvent.
  change (select_winningBets eventId winningOptionId (set_bettingEvents _ db))
    with (select_winningBets eventId winningOptionId db).
  rewrite Hrows. simpl. split_and!; try done.
  intros id bet' Hb Hevent Hactive. simpl in Hb. rewrite lookup_fmap in Hb.
  destruct (bets db !! id) as [bet|] eqn:Hbet; [|done].
  injection Hb as <-. unfold mark_lost in Hevent, Hactive.
  destruct (is_losing_bet eventId winningOptionId bet) eqn:Hl; [done|].
  assert (is_losing_bet eventId winningOptionId bet = true); [|congruence].
  apply is_losing_bet_true. split_and!; [done| |done]. by eapply Hnone.
Qed.

Lemma resolveBettingEvent_without_winner_witness :
  let r := resolveBettingEvent "ev" "maybe" "admin" 2000 sample_db in
  r.2 = Returned
  ∧ creditTransactions r.1 = creditTransactions sample_db
  ∧ users r.1 = users sample_db
  ∧ bets r.1 = mark_lost "ev" "maybe" <$> bets sample_db
  ∧ no_active_bet "ev" r.1.
Proof.
  apply (resolveBettingEvent_without_winner "ev" "maybe" "admin" 2000 sample_db).
  intros id bet Hbet. simpl in Hbet.
  apply lookup_singleton_Some in Hbet as [<- <-]. discriminate.
Defined.

(** ** Statistics *)

Lemma filter_length_le {A} (f : A → bool) (l : list A) :
  (length (List.filter f l) ≤ length l)%nat.
Proof. induction l as [|x l IH]; simpl; [done|]. destruct (f x); simpl; lia. Qed.

Lemma filter_length_lt {A} (f : A → bool) (l : list A) x :
  x ∈ l → f x = false → (length (List.filter f l) < length l)%nat.
Proof.
  induction l as [|y l IH]; [by intros ?%elem_of_nil|].
  intros [->|Hin]%elem_of_cons Hx; simpl.
  - rewrite Hx. pose proof (filter_length_le f l). lia.
  - destruct (f y); simpl; [specialize (IH Hin Hx)|pose proof (filter_length_le f l)]; lia.
Qed.

(** X13. The rank of [getUserStats]: on an empty [users] table the call
    throws; otherwise it returns, [totalUsers] is the number of players
    and the rank lies between 1 and [totalUsers]; a player is ranked 1
    exactly when no player has more credits, and an id of no player is
    ranked 1 as well. *)
Theorem getUserStats_rank (userId : string) (db : Db) :
  (users db = ∅ → getUserStats userId db = None)
  ∧ (users db ≠ ∅ →
     ∃ stats,
       getUserStats userId db = Some stats
       ∧ UserStats.totalUsers stats = Z.of_nat (size (users db))
       ∧ 1 ≤ UserStats.rank stats ≤ UserStats.totalUsers stats
       ∧ (users db !! userId = None → UserStats.rank stats = 1)
       ∧ ∀ u, users db !! userId = Some u →
           (UserStats.rank stats = 1
            ↔ ∀ id' u', users db !! id' = Some u' → User.credits u' ≤ User.credits u)).
Proof.
  split.
  - intros Hempty. unfold getUserStats. by rewrite Hempty, map_to_list_empty.
  - intros Hne. unfold getUserStats.
    destruct (map_to_list (users db)) as [|row rows] eqn:Hrows;
      [by apply map_to_list_empty_iff in Hrows|].
    eexists. split; [reflexivity|]. cbn [UserStats.totalUsers UserStats.rank].
    assert (size (users db) = length (row :: rows)) as Hsize
      by (by rewrite <- Hrows, length_map_to_list).
    unfold select_rank. rewrite Hrows.
    destruct (users db !! userId) as [u|] eqn:Hu.
    + assert ((userId, u) ∈ row :: rows) as Hin
        by (rewrite <- Hrows; by apply elem_of_map_to_list).
      pose proof (filter_length_lt
                    (λ row : string * User.t, User.credits u <? User.credits row.2)
                    (row :: rows) (userId, u) Hin (Z.ltb_irrefl _)) as Hlt.
      split_and!; [done|lia|lia|done|].
      intros u' [= <-]. split.
      * intros Hrank id' u' Hu'.
        assert (List.filter (λ row : string * User.t, User.credits u <? User.credits row.2)
                  (row :: rows) = []) as Hnil
          by (apply length_zero_iff_nil; lia).
        destruct (Z.ltb_spec (User.credits u) (User.credits u')) as [Hgt|]; [|done].
        assert ((id', u') ∈ @nil (string * User.t)) as []%elem_of_nil.
        rewrite <- Hnil. apply list_elem_of_In, filter_In. split.
        -- apply list_elem_of_In. rewrite <- Hrows. by apply elem_of_map_to_list.
        -- by apply Z.ltb_lt.
      * intros Hmax.
        assert (List.filter (λ row : string * User.t, User.credits u <? User.credits row.2)
                  (row :: rows) = []) as ->; [|done].
        apply elem_of_nil_inv. intros [id' u'] Hin'.
        apply list_elem_of_In, filter_In in Hin' as [Hin' Hgt]. apply Z.ltb_lt in Hgt.
        apply list_elem_of_In in Hin'. rewrite <- Hrows in Hin'.
        apply elem_of_map_to_list in Hin'. specialize (Hmax _ _ Hin'). simpl in Hgt. lia.
    + split_and!; [done|lia|simpl in *; lia|done|done].
Qed.

Lemma getUserStats_rank_witness :
  ∃ stats,
    getUserStats "bob" sample_db = Some stats
    ∧ UserStats.totalUsers stats = Z.of_nat (size (users sample_db))
    ∧ 1 ≤ UserStats.rank stats ≤ UserStats.totalUsers stats
    ∧ (users sample_db !! "bob" = None → UserStats.rank stats = 1)
    ∧ ∀ u, users sample_db !! "bob" = Some u →
        (UserStats.rank stats = 1
         ↔ ∀ id' u', users sample_db !! id' = Some u' → User.credits u' ≤ User.credits u).
Proof.
  apply (proj2 (getUserStats_rank "bob" sample_db)).
  intros Hempty. assert (users sample_db !! "bob" = None) as Hbob by (by rewrite Hempty).
  vm_compute in Hbob. discriminate.
Defined.

Section BettingFigures.

Context {A : Type} (f : A → Z).

Lemma foldl_sum_shift (l : list A) (a : Z) :
  foldl (λ sum x, sum + f x) a l = a + foldl (λ sum x, sum + f x) 0 l.
Proof.
  revert a. induction l as [|x l IH]; intros a; simpl; [lia|].
  rewrite (IH (a + f x)), (IH (0 + f x)). lia.
Qed.

Lemma foldl_sum_Permutation (l1 l2 : list A) :
  l1 ≡ₚ l2 → foldl (λ sum x, sum + f x) 0 l1 = foldl (λ sum x, sum + f x) 0 l2.
Proof.
  induction 1 as [|x l1 l2 _ IH|x y l|l1 l2 l3 _ IH1 _ IH2]; simpl.
  - done.
  - by rewrite (foldl_sum_shift l1), (foldl_sum_shift l2), IH.
  - rewrite (foldl_sum_shift l (0 + f y + f x)), (foldl_sum_shift l (0 + f x + f y)). lia.
  - congruence.
Qed.

Lemma filter_Permutation_bool (p : A → bool) (l1 l2 : list A) :
  l1 ≡ₚ l2 → List.filter p l1 ≡ₚ List.filter p l2.
Proof.
  induction 1 as [|x l1 l2 _ IH|x y l|l1 l2 l3 _ IH1 _ IH2]; simpl.
  - done.
  - destruct (p x); [by constructor|done].
  - destruct (p x), (p y); try done. apply perm_swap.
  - by etrans.
Qed.

End BettingFigures.

Lemma select_userBets_insert userId db db' id row :
  bets db !! id = None →
  bets db' = <[id := row]> (bets db) →
  select_userBets userId db'
  ≡ₚ (if String.eqb (Bet.userId row) userId then [row] else []) ++ select_userBets userId db.
Proof.
  intros Hid Hdb'. unfold select_userBets. rewrite Hdb'.
  rewrite (filter_Permutation_bool _ _ _
             (fmap_Permutation snd _ _ (map_to_list_insert (bets db) id row Hid))).
  simpl. by destruct (String.eqb (Bet.userId row) userId).
Qed.

(** X14. A bet that is placed shows in the bettor's statistics and in
    nobody else's: after a [placeBet] that returned, [getUserStats] of the
    bettor gives [totalWagered] and [totalStaked] raised by the amount and
    one more active bet, [getUserStats] of any other player gives these
    three as before, and [totalWon] and [totalUsers] are unchanged for
    everybody. *)
Theorem getUserStats_after_placeBet (id : string) (bet : InsertBet.t) (now : Z)
    (db db' : Db) (userId : string) (stats : UserStats.t) :
  placeBet id bet now db = (db', Returned) →
  getUserStats userId db = Some stats →
  ∃ stats',
    getUserStats userId db' = Some stats'
    ∧ UserStats.totalUsers stats' = UserStats.totalUsers stats
    ∧ UserStats.totalWon stats' = UserStats.totalWon stats
    ∧ let stake := if String.eqb (InsertBet.userId bet) userId then 1 else 0 in
      UserStats.totalWagered stats'
      = UserStats.totalWagered stats + stake * InsertBet.amount bet
      ∧ UserStats.totalStaked stats'
        = UserStats.totalStaked stats + stake * InsertBet.amount bet
      ∧ UserStats.activeBets stats' = UserStats.activeBets stats + stake.
Proof.
  intros Hplace Hstats. unfold placeBet in Hplace.
  destruct (bets db !! id) eqn:Hid; [done|].
  destruct (bettingEvents db !! InsertBet.eventId bet); [|done].
  destruct (bettingOptions db !! InsertBet.optionId bet); [|done].
  destruct (users db !! InsertBet.userId bet) as [player|] eqn:Hu; [|done].
  destruct (int4 (InsertBet.amount bet)) eqn:Ha; [|done]. cbn [negb] in Hplace.
  match type of Hplace with context [updateUserCredits ?a ?b ?c ?d ?e ?f ?g] =>
    destruct (updateUserCredits_cases a b c d e f g) as [Hupd|(u & Hu' & _ & _ & Hupd)];
      rewrite Hupd in Hplace
  end; [done|]. cbn [andThen] in Hplace. injection Hplace as <-.
  simpl in Hu'. clear Hupd.
  set (row := Bet.mk (InsertBet.eventId bet) (InsertBet.optionId bet) (InsertBet.userId bet)
                (InsertBet.amount bet) "active" None).
  set (db' := add_creditTransaction _ _).
  pose proof (select_userBets_insert userId db db' id row Hid eq_refl) as Hperm.
  unfold getUserStats in *.
  destruct (map_to_list (users db)) as [|r0 rows0] eqn:Hrows; [done|].
  injection Hstats as <-.
  destruct (map_to_list (users db')) as [|r1 rows1] eqn:Hrows'.
  { apply map_to_list_empty_iff in Hrows'. simpl in Hrows'.
    by apply insert_non_empty in Hrows'. }
  eexists. split; [reflexivity|].
  cbn [UserStats.totalUsers UserStats.totalWon UserStats.totalWagered
       UserStats.totalStaked UserStats.activeBets].
  split_and!.
  - simpl. by rewrite map_size_insert_Some.
  - rewrite (foldl_sum_Permutation _ _ _ (filter_Permutation_bool _ _ _ Hperm)).
    by destruct (String.eqb (Bet.userId row) userId).
  - rewrite (foldl_sum_Permutation _ _ _ Hperm).
    change (Bet.userId row) with (InsertBet.userId bet).
    destruct (String.eqb (InsertBet.userId bet) userId); simpl; [|lia].
    rewrite foldl_sum_shift. lia.
  - rewrite (foldl_sum_Permutation _ _ _ (filter_Permutation_bool _ _ _ Hperm)).
    change (Bet.userId row) with (InsertBet.userId bet).
    destruct (String.eqb (InsertBet.userId bet) userId); simpl; [|lia].
    rewrite foldl_sum_shift. lia.
  - rewrite (Permutation_length (filter_Permutation_bool _ _ _ Hperm)).
    change (Bet.userId row) with (InsertBet.userId bet).
    destruct (String.eqb (InsertBet.userId bet) userId); simpl; lia.
Qed.

Lemma getUserStats_after_placeBet_witness :
  let bet := InsertBet.mk "ev" "no" "bob" 100 in
  let db' := (placeBet "b2" bet 1000 sample_db).1 in
  ∃ stats',
    getUserStats "bob" db' = Some stats'
    ∧ UserStats.totalUsers stats' = 2
    ∧ UserStats.totalWon stats' = 0
    ∧ UserStats.totalWagered stats' = 0 + 1 * 100
    ∧ UserStats.totalStaked stats' = 0 + 1 * 100
    ∧ UserStats.activeBets stats' = 0 + 1.
Proof.
  apply (getUserStats_after_placeBet "b2" (InsertBet.mk "ev" "no" "bob" 100) 1000
           sample_db _ "bob"
           (UserStats.mk 0 0 (Number_of_int 0) 0 0 2 2));
    vm_compute; reflexivity.
Defined.

(** ** Leaderboard *)

Section Leaderboard.

Local Instance by_credits_desc_trans : Transitive by_credits_desc.
Proof. unfold by_credits_desc. intros a b c ??. lia. Qed.

Local Instance by_credits_desc_total : Total by_credits_desc.
Proof. unfold by_credits_desc. intros a b. lia. Qed.

Lemma sorted_users_spec (db : Db) :
  let sorted := merge_sort by_credits_desc (map_to_list (users db)) in
  StronglySorted by_credits_desc sorted
  ∧ NoDup sorted.*1
  ∧ length sorted = size (users db)
  ∧ ∀ id u, (id, u) ∈ sorted ↔ users db !! id = Some u.
Proof.
  simpl. pose proof (merge_sort_Permutation by_credits_desc (map_to_list (users db))) as Hp.
  split_and!.
  - apply StronglySorted_merge_sort; apply _.
  - rewrite Hp. apply NoDup_fst_map_to_list.
  - by rewrite Hp, length_map_to_list.
  - intros id u. by rewrite Hp, elem_of_map_to_list.
Qed.

End Leaderboard.

Lemma count_approved_0 db :
  (∀ id s, challengeSubmissions db !! id = Some s → Submission.userId s ≠ id) →
  count_approved db = 0.
Proof.
  intros Hkeys. unfold count_approved.
  assert (∀ row, row ∈ map_to_list (challengeSubmissions db) →
                 Submission.userId row.2 ≠ row.1) as Hrows.
  { intros [id s] Hin%elem_of_map_to_list. by apply (Hkeys id). }
  induction (map_to_list (challengeSubmissions db)) as [|row rows IH]; [done|].
  simpl. destruct (String.eqb_spec (Submission.userId row.2) row.1) as [Heq|_].
  - exfalso. apply (Hrows row); [left|done].
  - simpl. apply IH. intros row' Hin. apply Hrows. by right.
Qed.

(** X15. The leaderboard: [getLeaderboard] lists the hundred richest
    players, or all of them if they are fewer, each once, by descending
    credits; every row carries the player's row as it is in [users] and a
    weekly change of zero, and no player left out has more credits than a
    player listed.  [challengesCompleted] is not the number of the
    player's approved submissions: the subquery compares the player of a
    submission with the key of the submission, so that every row carries
    the same number, which is zero whenever no submission is keyed by the
    id of its player. *)
Theorem getLeaderboard_spec (db : Db) :
  let board := getLeaderboard db in
  length board = (100 `min` size (users db))%nat
  ∧ StronglySorted
      (λ a b, User.credits (LeaderboardRow.user b) ≤ User.credits (LeaderboardRow.user a))
      board
  ∧ NoDup (LeaderboardRow.id <$> board)
  ∧ (∀ row, row ∈ board →
       users db !! LeaderboardRow.id row = Some (LeaderboardRow.user row)
       ∧ LeaderboardRow.weeklyChange row = 0)
  ∧ (∀ row row', row ∈ board → row' ∈ board →
       LeaderboardRow.challengesCompleted row = LeaderboardRow.challengesCompleted row')
  ∧ ((∀ id s, challengeSubmissions db !! id = Some s → Submission.userId s ≠ id) →
     ∀ row, row ∈ board → LeaderboardRow.challengesCompleted row = 0)
  ∧ (∀ id u row,
       users db !! id = Some u → id ∉ LeaderboardRow.id <$> board → row ∈ board →
       User.credits u ≤ User.credits (LeaderboardRow.user row)).
Proof.
  destruct (sorted_users_spec db) as (Hsorted & Hnd & Hlen & Hin).
  unfold getLeaderboard.
  set (sorted := merge_sort by_credits_desc (map_to_list (users db))) in *.
  rewrite <- (take_drop 100 sorted) in Hsorted.
  simpl. split_and!.
  - by rewrite length_fmap, length_take, Hlen.
  - eapply StronglySorted_fmap; [|by eapply StronglySorted_app_1_l].
    by intros [??] [??].
  - rewrite <- list_fmap_compose.
    eapply (sublist_NoDup _ sorted.*1); [done|].
    apply (fmap_sublist (fst : string * User.t → string)), sublist_take.
  - intros row ([id u] & -> & Hrow%elem_of_take)%list_elem_of_fmap. simpl.
    destruct Hrow as (i & Hi & _). split; [|done].
    apply Hin. by eapply list_elem_of_lookup_2.
  - by intros row row' ([id u] & -> & _)%list_elem_of_fmap
                       ([id' u'] & -> & _)%list_elem_of_fmap.
  - intros Hkeys row ([id u] & -> & _)%list_elem_of_fmap. simpl.
    by apply count_approved_0.
  - intros id u row Hu Hout ([id' u'] & -> & Hrow)%list_elem_of_fmap. simpl.
    apply Hin in Hu. rewrite <- (take_drop 100 sorted) in Hu.
    apply elem_of_app in Hu as [Hu|Hu].
    + exfalso. apply Hout. apply list_elem_of_fmap.
      exists (LeaderboardRow.mk id u (count_approved db) 0). split; [done|].
      apply list_elem_of_fmap. by exists (id, u).
    + apply (StronglySorted_app_1_elem_of _ _ _ _ _ Hsorted Hrow Hu).
Qed.

(** Alice's submission is approved, and the leaderboard gives her none. *)
Lemma getLeaderboard_spec_witness :
  let db := (reviewSubmission "s1" approved "bob" 1000 sample_db).1 in
  Submission.status <$> challengeSubmissions db !! "s1" = Some "approved"
  ∧ Submission.userId <$> challengeSubmissions db !! "s1" = Some "alice"
  ∧ ∀ row, row ∈ getLeaderboard db → LeaderboardRow.challengesCompleted row = 0.
Proof.
  intros db. split_and!; [vm_compute; reflexivity..|].
  apply (proj1 (proj2 (proj2 (proj2 (proj2 (proj2 (getLeaderboard_spec db))))))).
  intros id s Hs.
  assert (challengeSubmissions db
          = {[ "s1" := Submission.mk "c1" "alice" "approved" (Some "bob") (Some 1000) ]})
    as Hdb by (vm_compute; reflexivity).
  rewrite Hdb in Hs. apply lookup_singleton_Some in Hs as [<- <-]. discriminate.
Defined.

(** ** Pending loans and submissions *)

(** X16. [createLoan] moves no credits.  With a fresh id, an existing
    borrower and amounts that fit the columns it returns the new loan,
    pending and without lender; [getPendingLoans] then lists this loan
    with its borrower on top of what it listed before, and players and
    ledger are untouched.  In every other case (the id is taken, the
    borrower is missing, an amount does not fit) it throws and nothing
    has changed. *)
Theorem createLoan_effect (id : string) (loan : InsertLoan.t) (db : Db) :
  let r := createLoan id loan db in
  let created :=
    Loan.mk (InsertLoan.borrowerId loan) None (InsertLoan.amount loan)
      (InsertLoan.totalRepayment loan) "pending" None None in
  let accepted :=
    loans db !! id = None
    ∧ is_Some (users db !! InsertLoan.borrowerId loan)
    ∧ int4 (InsertLoan.amount loan) = true
    ∧ int4 (InsertLoan.interestRate loan) = true
    ∧ int4 (InsertLoan.totalRepayment loan) = true in
  (accepted →
   r.2 = Some created
   ∧ loans r.1 = <[id := created]> (loans db)
   ∧ users r.1 = users db
   ∧ creditTransactions r.1 = creditTransactions db
   ∧ ∀ borrower, users db !! InsertLoan.borrowerId loan = Some borrower →
       getPendingLoans r.1 = <[id := (created, borrower)]> (getPendingLoans db))
  ∧ (¬ accepted → r = (db, None)).
Proof.
  simpl. unfold createLoan. split.
  - intros (-> & [borrower Hb] & -> & -> & ->). rewrite Hb. simpl.
    split_and!; try done.
    intros ? [= <-]. unfold getPendingLoans. simpl.
    apply omap_insert_Some. simpl. by rewrite Hb.
  - intros Hnot. destruct (loans db !! id) eqn:Hid; [done|].
    destruct (users db !! InsertLoan.borrowerId loan) as [borrower|] eqn:Hb; [|done].
    destruct (int4 (InsertLoan.amount loan)) eqn:Ha; [|done].
    destruct (int4 (InsertLoan.interestRate loan)) eqn:Hi; [|done].
    destruct (int4 (InsertLoan.totalRepayment loan)) eqn:Ht; [|done].
    exfalso. apply Hnot. by split_and!.
Qed.

Lemma createLoan_effect_witness :
  let loan := InsertLoan.mk "alice" 300 10 330 5000 None in
  let created := Loan.mk "alice" None 300 330 "pending" None None in
  let r := createLoan "l2" loan sample_db in
  (r.2 = Some created
   ∧ users r.1 = users sample_db
   ∧ creditTransactions r.1 = creditTransactions sample_db
   ∧ getPendingLoans r.1
     = <[ "l2" := (created, User.mk 700 None None) ]> (getPendingLoans sample_db))
  ∧ createLoan "l1" loan sample_db = (sample_db, None).
Proof.
  intros loan created r. split.
  - destruct (proj1 (createLoan_effect "l2" loan sample_db))
      as (Hr & _ & Hu & He & Hp).
    { split_and!; [vm_compute; reflexivity|by eexists|reflexivity..]. }
    split_and!; [exact Hr|exact Hu|exact He|]. apply Hp. vm_compute; reflexivity.
  - apply (proj2 (createLoan_effect "l1" loan sample_db)).
    intros (Hfresh & _). vm_compute in Hfresh. discriminate Hfresh.
Defined.

Lemma fundLoan_returned_loan loanId lenderId now db db' :
  fundLoan loanId lenderId now db = (db', Returned) →
  ∀ loan, loans db' !! loanId = Some loan → Loan.status loan = "funded".
Proof.
  unfold fundLoan. destruct (loans db !! loanId) as [row|] eqn:Hrow.
  - destruct (users db !! lenderId); [|done].
    match goal with |- context [andThen _ (updateUserCredits ?a ?b ?c ?d ?e ?f ?g)] =>
      destruct (updateUserCredits_cases a b c d e f g) as [->|(u & Hu & _ & _ & ->)]
    end; [done|]. cbn [andThen].
    match goal with |- context [andThen _ (updateUserCredits ?a ?b ?c ?d ?e ?f ?g)] =>
      destruct (updateUserCredits_cases a b c d e f g) as [->|(u2 & Hu2 & _ & _ & ->)]
    end; [done|]. cbn [andThen]. intros [= <-] loan. simpl.
    rewrite lookup_insert_eq. by intros [= <-].
  - intros [= <-] loan. by rewrite Hrow.
Qed.

Lemma repayLoan_returned_loan loanId now db db' :
  repayLoan loanId now db = (db', Returned) →
  ∀ loan, loans db' !! loanId = Some loan → Loan.status loan = "repaid".
Proof.
  unfold repayLoan. destruct (loans db !! loanId) as [row|] eqn:Hrow.
  - cbn [Loan.lenderId Loan.totalRepayment Loan.borrowerId].
    destruct (truthy (Loan.lenderId row)) as [lenderId|].
    + match goal with |- context [andThen _ (updateUserCredits ?a ?b ?c ?d ?e ?f ?g)] =>
        destruct (updateUserCredits_cases a b c d e f g) as [->|(u & Hu & _ & _ & ->)]
      end; [done|]. cbn [andThen].
      match goal with |- context [andThen _ (updateUserCredits ?a ?b ?c ?d ?e ?f ?g)] =>
        destruct (updateUserCredits_cases a b c d e f g) as [->|(u2 & Hu2 & _ & _ & ->)]
      end; [done|]. cbn [andThen]. intros [= <-] loan. simpl.
      rewrite lookup_insert_eq. by intros [= <-].
    + intros [= <-] loan. simpl. rewrite lookup_insert_eq. by intros [= <-].
  - intros [= <-] loan. by rewrite Hrow.
Qed.

(** X17. A loan leaves the pending list when it is funded or repaid: after
    a [fundLoan] or a [repayLoan] that returned, [getPendingLoans] has no
    row for the loan. *)
Theorem settled_loan_is_not_pending (now : Z) (op : Op) (loanId : string) (db : Db) :
  (∃ lenderId, op = FundLoan loanId lenderId) ∨ op = RepayLoan loanId →
  (run now op db).2 = Returned →
  getPendingLoans (run now op db).1 !! loanId = None.
Proof.
  intros Hop Hret. unfold getPendingLoans. rewrite lookup_omap.
  destruct (loans (run now op db).1 !! loanId) as [loan|] eqn:Hloan; [|done]. simpl.
  destruct (run now op db) as [db' out] eqn:Hrun. simpl in *. subst out.
  destruct Hop as [[lenderId ->]| ->]; simpl in Hrun.
  - by rewrite (fundLoan_returned_loan _ _ _ _ _ Hrun _ Hloan).
  - by rewrite (repayLoan_returned_loan _ _ _ _ Hrun _ Hloan).
Qed.

Lemma settled_loan_is_not_pending_witness :
  is_Some (getPendingLoans sample_db !! "l1")
  ∧ getPendingLoans (run 1000 (FundLoan "l1" "alice") sample_db).1 !! "l1" = None.
Proof.
  split; [eexists; vm_compute; reflexivity|].
  apply (settled_loan_is_not_pending 1000 (FundLoan "l1" "alice") "l1" sample_db).
  - left. by exists "alice".
  - vm_compute; reflexivity.
Defined.

Lemma reviewSubmission_returned_status submissionId status reviewerId now db db' :
  reviewSubmission submissionId status reviewerId now db = (db', Returned) →
  ∀ s, challengeSubmissions db' !! submissionId = Some s →
       Submission.status s = decision_status status.
Proof.
  unfold reviewSubmission.
  destruct (challengeSubmissions db !! submissionId) as [row|] eqn:Hrow.
  - destruct (users db !! reviewerId); [|done].
    destruct status; simpl.
    + destruct (challenges db !! Submission.challengeId row).
      * match goal with |- context [andThen _ (updateUserCredits ?a ?b ?c ?d ?e ?f ?g)] =>
          destruct (updateUserCredits_cases a b c d e f g) as [->|(u & Hu & _ & _ & ->)]
        end; [done|]. cbn [andThen]. intros [= <-] s. simpl.
        rewrite lookup_insert_eq. by intros [= <-].
      * intros [= <-] s. simpl. rewrite lookup_insert_eq. by intros [= <-].
    + intros [= <-] s. simpl. rewrite lookup_insert_eq. by intros [= <-].
  - destruct status; [done|]. intros [= <-] s. by rewrite Hrow.
Qed.

(** X18. Submissions wait for their review in the pending list.
    [createSubmission] with a fresh id, an existing challenge and an
    existing player returns a pending submission, which
    [getPendingSubmissions] then lists with its challenge and its player
    on top of what it listed before, whatever the player submitted
    before; players and ledger are untouched.  When the id is taken or
    the challenge or the player is missing it throws and nothing has
    changed.  After a [reviewSubmission] that returned, with either
    decision, the list has no row for the submission. *)
Theorem pending_submissions_workflow (id : string) (db : Db) :
  (∀ submission,
     let r := createSubmission id submission db in
     let created :=
       Submission.mk (InsertSubmission.challengeId submission)
         (InsertSubmission.userId submission) "pending" None None in
     (∀ challenge user,
        challengeSubmissions db !! id = None →
        challenges db !! InsertSubmission.challengeId submission = Some challenge →
        users db !! InsertSubmission.userId submission = Some user →
        r.2 = Some created
        ∧ challengeSubmissions r.1 = <[id := created]> (challengeSubmissions db)
        ∧ getPendingSubmissions r.1
          = <[id := (created, challenge, user)]> (getPendingSubmissions db)
        ∧ users r.1 = users db
        ∧ creditTransactions r.1 = creditTransactions db)
     ∧ (is_Some (challengeSubmissions db !! id)
        ∨ challenges db !! InsertSubmission.challengeId submission = None
        ∨ users db !! InsertSubmission.userId submission = None →
        r = (db, None)))
  ∧ (∀ status reviewerId now db',
       reviewSubmission id status reviewerId now db = (db', Returned) →
       getPendingSubmissions db' !! id = None).
Proof.
  split.
  - intros submission. simpl. unfold createSubmission. split.
    + intros challenge user Hid Hc Hu. rewrite Hid, Hc, Hu. simpl.
      split_and!; try done.
      unfold getPendingSubmissions. simpl. apply omap_insert_Some. simpl.
      by rewrite Hc, Hu.
    + intros [[? ->]|[->| Hu]]; [done|by destruct (challengeSubmissions db !! id)|].
      rewrite Hu. by repeat case_match.
  - intros status reviewerId now db' Hrev.
    unfold getPendingSubmissions. rewrite lookup_omap.
    destruct (challengeSubmissions db' !! id) as [s|] eqn:Hs; [|done]. simpl.
    rewrite (reviewSubmission_returned_status _ _ _ _ _ _ Hrev _ Hs). by destruct status.
Qed.

Lemma pending_submissions_workflow_witness :
  let submission := InsertSubmission.mk "c1" "alice" "Ran it again" None in
  let created := Submission.mk "c1" "alice" "pending" None None in
  let r := createSubmission "s2" submission sample_db in
  (r.2 = Some created
   ∧ getPendingSubmissions r.1
     = <[ "s2" := (created, Challenge.mk "Run a mile" 50, User.mk 700 None None) ]>
         (getPendingSubmissions sample_db)
   ∧ users r.1 = users sample_db
   ∧ creditTransactions r.1 = creditTransactions sample_db)
  ∧ createSubmission "s2" (InsertSubmission.mk "c9" "alice" "No such challenge" None)
      sample_db
    = (sample_db, None)
  ∧ getPendingSubmissions (reviewSubmission "s1" rejected "bob" 1000 sample_db).1 !! "s1"
    = None.
Proof.
  intros submission created r. split; [|split].
  - destruct (proj1 (proj1 (pending_submissions_workflow "s2" sample_db) submission)
                (Challenge.mk "Run a mile" 50) (User.mk 700 None None))
      as (Hr & _ & Hp & Hu & He); [vm_compute; reflexivity..|].
    by split_and!.
  - apply (proj2 (proj1 (pending_submissions_workflow "s2" sample_db)
                    (InsertSubmission.mk "c9" "alice" "No such challenge" None))).
    right. left. vm_compute; reflexivity.
  - apply (proj2 (pending_submissions_workflow "s1" sample_db) rejected "bob" 1000).
    vm_compute; reflexivity.
Defined.

(** ** Routes *)

Lemma updateUserCredits_entries userId amount type description referenceId now db :
  ∃ new,
    creditTransactions
      (updateUserCredits userId amount type description referenceId now db).1
    = creditTransactions db ++ new
    ∧ Forall (λ e, CreditTransaction.userId e = userId) new.
Proof.
  destruct (updateUserCredits_cases userId amount type description referenceId now db)
    as [->|(u & _ & _ & _ & ->)]; simpl.
  - exists []. by rewrite app_nil_r.
  - eexists [_]. split; [done|]. by repeat constructor.
Qed.

Lemma placeBet_entries id bet now db :
  Forall (λ e, CreditTransaction.userId e = InsertBet.userId bet)
    (new_entries db (placeBet id bet now db).1).
Proof.
  assert (new_entries db db = []) as Hnil by (unfold new_entries; by rewrite drop_all).
  unfold placeBet. repeat case_match; simpl; rewrite ?Hnil; try done.
  match goal with |- context [updateUserCredits ?a ?b ?c ?d ?e ?f ?g] =>
    destruct (updateUserCredits_entries a b c d e f g) as (new & Hnew & Hall);
    destruct (updateUserCredits a b c d e f g) as [db1 []]
  end; simpl in *; by rewrite (new_entries_app _ _ new).
Qed.

Lemma cancelBet_entries betId userId now db :
  Forall (λ e, CreditTransaction.userId e = userId)
    (new_entries db (cancelBet betId userId now db).1).
Proof.
  assert (new_entries db db = []) as Hnil by (unfold new_entries; by rewrite drop_all).
  unfold cancelBet. repeat case_match; simpl; rewrite ?Hnil; try done.
  match goal with |- context [updateUserCredits ?a ?b ?c ?d ?e ?f ?g] =>
    destruct (updateUserCredits_entries a b c d e f g) as (new & Hnew & Hall);
    destruct (updateUserCredits a b c d e f g) as [db1 []]
  end; simpl in *; by rewrite (new_entries_app _ _ new).
Qed.

Lemma cancelBet_other_bets betId userId now db id b :
  bets db !! id = Some b → Bet.userId b ≠ userId →
  bets (cancelBet betId userId now db).1 !! id = Some b.
Proof.
  intros Hb Hne. unfold cancelBet.
  destruct (bets db !! betId) as [row|] eqn:Hrow; [|done].
  destruct (String.eqb_spec (Bet.userId row) userId) as [Heq|]; simpl; [|done].
  match goal with |- context [updateUserCredits ?a ?b ?c ?d ?e ?f ?g] =>
    destruct (updateUserCredits_cases a b c d e f g) as [->|(u & _ & _ & _ & ->)]
  end; simpl; [done|].
  rewrite lookup_insert_ne; [done|]. intros ->. congruence.
Qed.

(** X20. The betting routes act for the caller.  A bet posted is stored
    and debited under the caller's id, whatever [userId] the body
    carries; a cancellation leaves the bets of every other player as they
    are and refunds nobody but the caller, and it answers 200 with
    nothing changed when the bet does not exist or is not the
    caller's. *)
Theorem betting_routes_act_for_caller (sub : string) (now : Z) (db : Db) :
  (∀ id body db' response,
     post_bets sub id body now db = (db', response) →
     Forall (λ e, CreditTransaction.userId e = sub) (new_entries db db')
     ∧ (Response.status response = 200 →
        bets db'
        = <[id := Bet.mk (InsertBet.eventId body) (InsertBet.optionId body) sub
                    (InsertBet.amount body) "active" None]>
            (bets db)))
  ∧ (∀ betId db' response,
       delete_bets sub betId now db = (db', response) →
       Forall (λ e, CreditTransaction.userId e = sub) (new_entries db db')
       ∧ (∀ id b, bets db !! id = Some b → Bet.userId b ≠ sub → bets db' !! id = Some b)
       ∧ ((bets db !! betId = None
           ∨ ∃ b, bets db !! betId = Some b ∧ Bet.userId b ≠ sub) →
          db' = db ∧ response = Response.mk 200 "Bet cancelled successfully")).
Proof.
  split.
  - intros id body db' response Hpost. unfold post_bets, answer in Hpost.
    set (bet := InsertBet.mk _ _ sub _) in Hpost.
    pose proof (placeBet_entries id bet now db) as Hentries.
    destruct (placeBet id bet now db) as [db1 out] eqn:Hplace.
    assert (db1 = db') as -> by (by destruct out; injection Hpost).
    split; [done|]. intros Hok.
    destruct out; [|injection Hpost as <-; done].
    unfold placeBet in Hplace. repeat case_match; try done.
    match type of Hplace with context [updateUserCredits ?a ?b ?c ?d ?e ?f ?g] =>
      destruct (updateUserCredits_cases a b c d e f g) as [Hupd|(u & _ & _ & _ & Hupd)];
        rewrite Hupd in Hplace
    end; [done|]. by injection Hplace as <-.
  - intros betId db' response Hdel. unfold delete_bets, answer in Hdel.
    pose proof (cancelBet_entries betId sub now db) as Hentries.
    pose proof (cancelBet_other_bets betId sub now db) as Hothers.
    destruct (cancelBet betId sub now db) as [db1 out] eqn:Hcancel.
    assert (db1 = db') as -> by (by destruct out; injection Hdel).
    split_and!; [done|done|].
    intros Hmiss. unfold cancelBet in Hcancel.
    destruct Hmiss as [Hnone|(b & Hb & Hne)].
    + rewrite Hnone in Hcancel. injection Hcancel as <- <-. by injection Hdel.
    + rewrite Hb in Hcancel. apply String.eqb_neq in Hne. rewrite Hne in Hcancel.
      simpl in Hcancel. injection Hcancel as <- <-. by injection Hdel.
Qed.

Lemma betting_routes_act_for_caller_witness :
  let r := post_bets "bob" "b2" (InsertBet.mk "ev" "no" "alice" 100) 1000 sample_db in
  Forall (λ e, CreditTransaction.userId e = "bob") (new_entries sample_db r.1)
  ∧ bets r.1 = <[ "b2" := Bet.mk "ev" "no" "bob" 100 "active" None ]> (bets sample_db).
Proof.
  intros r.
  destruct (proj1 (betting_routes_act_for_caller "bob" 1000 sample_db)
              "b2" (InsertBet.mk "ev" "no" "alice" 100) r.1 r.2) as [Hentries Hbets].
  { vm_compute; reflexivity. }
  split; [exact Hentries|]. apply Hbets. vm_compute; reflexivity.
Defined.

(** ** The number of bets of an event *)

Lemma filter_fmap_length {A B} (f : A → B) (p : B → bool) (l : list A) :
  length (List.filter (λ x, p (f x)) l) = length (List.filter p (f <$> l)).
Proof.
  induction l as [|x l IH]; [done|]. rewrite fmap_cons. simpl.
  destruct (p (f x)); simpl; congruence.
Qed.

Lemma count_bets_eventIds eventId db db' :
  Bet.eventId <$> bets db' = Bet.eventId <$> bets db →
  count_bets eventId db' = count_bets eventId db.
Proof.
  intros Heq. unfold count_bets. f_equal.
  rewrite !(filter_fmap_length Bet.eventId (λ e, String.eqb e eventId)).
  assert (∀ m : gmap string Bet.t,
            Bet.eventId <$> (map_to_list m).*2 ≡ₚ (map_to_list (Bet.eventId <$> m)).*2)
    as Hperm.
  { intros m. rewrite map_to_list_fmap, <- !list_fmap_compose.
    by rewrite (list_fmap_ext (Bet.eventId ∘ snd) (snd ∘ prod_map id Bet.eventId)
                  (map_to_list m)) by (by intros ? [??]). }
  apply Permutation_length, filter_Permutation_bool.
  by rewrite !Hperm, Heq.
Qed.

Lemma count_bets_insert eventId db db' id row :
  bets db !! id = None →
  bets db' = <[id := row]> (bets db) →
  count_bets eventId db'
  = count_bets eventId db + (if String.eqb (Bet.eventId row) eventId then 1 else 0).
Proof.
  intros Hid Hdb'. unfold count_bets. rewrite Hdb'.
  rewrite (Permutation_length
             (filter_Permutation_bool _ _ _
                (fmap_Permutation snd _ _ (map_to_list_insert (bets db) id row Hid)))).
  rewrite fmap_cons. cbn [List.filter snd].
  destruct (String.eqb (Bet.eventId row) eventId); [|lia].
  cbn [length]. lia.
Qed.

Lemma cancelBet_eventIds betId userId now db :
  Bet.eventId <$> bets (cancelBet betId userId now db).1 = Bet.eventId <$> bets db.
Proof.
  unfold cancelBet. destruct (bets db !! betId) as [row|] eqn:Hrow; [|done].
  case_match; [done|].
  match goal with |- context [updateUserCredits ?a ?b ?c ?d ?e ?f ?g] =>
    destruct (updateUserCredits_cases a b c d e f g) as [->|(u & _ & _ & _ & ->)]
  end; simpl; [done|].
  rewrite fmap_insert. simpl. apply insert_id. by rewrite lookup_fmap, Hrow.
Qed.

Lemma resolveBettingEvent_eventIds eventId winningOptionId adminId now db :
  Bet.eventId <$> bets (resolveBettingEvent eventId winningOptionId adminId now db).1
  = Bet.eventId <$> bets db.
Proof.
  destruct (resolveBettingEvent eventId winningOptionId adminId now db)
    as [db' out] eqn:Hres. simpl.
  apply resolveBettingEvent_spec in Hres as (new & _ & _ & _ & Hout).
  destruct out; [|by destruct Hout as [-> _]].
  destruct Hout as (_ & Hother & Hrows).
  apply map_eq. intros id. rewrite !lookup_fmap.
  destruct (decide (id ∈ (select_winningBets eventId winningOptionId db).*1.*1))
    as [Hin|Hnin].
  - apply row_ids_elem in Hin as (bet & o & Hrow).
    destruct (Hrows _ _ _ Hrow) as (p & bal & _ & -> & _).
    apply select_winningBets_elem in Hrow as (-> & _). done.
  - rewrite (Hother _ Hnin). destruct (bets db !! id) as [bet|]; [|done]. simpl.
    unfold mark_lost. by case_match.
Qed.

(** X21. [totalBets] of [getBettingEvents] counts every bet ever placed on
    the event, whatever has become of it: a [placeBet] that returned
    raises it by one for the event of the bet and leaves it for every
    other event, and neither [cancelBet] nor [resolveBettingEvent] ever
    changes it. *)
Theorem totalBets_counts_all_bets (eventId : string) (now : Z) (db : Db) :
  let totalBets db := BettingEventRow.totalBets <$> getBettingEvents db !! eventId in
  (∀ id bet db',
     placeBet id bet now db = (db', Returned) →
     totalBets db'
     = (λ n, n + (if String.eqb (InsertBet.eventId bet) eventId then 1 else 0))
       <$> totalBets db)
  ∧ (∀ betId userId, totalBets (cancelBet betId userId now db).1 = totalBets db)
  ∧ (∀ event winningOptionId adminId,
       totalBets (resolveBettingEvent event winningOptionId adminId now db).1
       = totalBets db).
Proof.
  simpl. unfold getBettingEvents. split_and!.
  - intros id bet db' Hplace. rewrite !map_lookup_imap.
    set (d := if String.eqb _ _ then _ else _).
    unfold placeBet in Hplace.
    destruct (bets db !! id) eqn:Hid; [done|]. repeat case_match; try done.
    match type of Hplace with context [updateUserCredits ?a ?b ?c ?d ?e ?f ?g] =>
      destruct (updateUserCredits_cases a b c d e f g) as [Hupd|(u & _ & _ & _ & Hupd)];
        rewrite Hupd in Hplace; simpl in Hplace
    end; [done|]. injection Hplace as <-. simpl.
    destruct (bettingEvents db !! eventId) as [ev|]; [|done]. simpl. f_equal.
    match goal with |- count_bets _ ?db1 = _ =>
      by rewrite (count_bets_insert eventId db db1 id
                    (Bet.mk (InsertBet.eventId bet) (InsertBet.optionId bet)
                       (InsertBet.userId bet) (InsertBet.amount bet) "active" None)
                    Hid eq_refl)
    end.
  - intros betId userId. rewrite !map_lookup_imap.
    rewrite (count_bets_eventIds eventId db _ (cancelBet_eventIds betId userId now db)).
    assert (bettingEvents (cancelBet betId userId now db).1 = bettingEvents db
            ∧ bettingOptions (cancelBet betId userId now db).1 = bettingOptions db)
      as [-> ->]; [|done].
    unfold cancelBet. repeat case_match; try done.
    match goal with |- context [updateUserCredits ?a ?b ?c ?d ?e ?f ?g] =>
      destruct (updateUserCredits_cases a b c d e f g) as [->|(u & _ & _ & _ & ->)]
    end; done.
  - intros event winningOptionId adminId. rewrite !map_lookup_imap.
    rewrite (count_bets_eventIds eventId db _
               (resolveBettingEvent_eventIds event winningOptionId adminId now db)).
    destruct (resolveBettingEvent event winningOptionId adminId now db)
      as [db' out] eqn:Hres. simpl.
    apply resolveBettingEvent_spec in Hres as (new & _ & _ & (_ & _ & -> & _) & Hout).
    destruct out.
    + destruct Hout as (-> & _).
      destruct (decide (event = eventId)) as [->|Hne].
      * rewrite lookup_alter_eq. by destruct (bettingEvents db !! eventId).
      * by rewrite lookup_alter_ne.
    + by destruct Hout as (_ & ->).
Qed.

Lemma totalBets_counts_all_bets_witness :
  let totalBets db := BettingEventRow.totalBets <$> getBettingEvents db !! "ev" in
  totalBets sample_db = Some 1
  ∧ totalBets (placeBet "b2" (InsertBet.mk "ev" "no" "bob" 100) 1000 sample_db).1
    = (λ n, n + 1) <$> totalBets sample_db
  ∧ totalBets (cancelBet "b1" "alice" 1000 sample_db).1 = totalBets sample_db.
Proof.
  cbv zeta. split_and!.
  - vm_compute; reflexivity.
  - apply (proj1 (totalBets_counts_all_bets "ev" 1000 sample_db)
             "b2" (InsertBet.mk "ev" "no" "bob" 100)).
    vm_compute; reflexivity.
  - apply (proj1 (proj2 (totalBets_counts_all_bets "ev" 1000 sample_db)) "b1" "alice").
Defined.
